(** * generate_embeddings.py: a shallow embedding of the Node2Vec pipeline

    The script [scripts/generate_embeddings.py] is one function, [main]:
    parse the command line, load an edge list with pandas, build a
    StellarGraph, sample random walks, train a Word2Vec model, look every
    node up in the model and write the table.

    The embedding follows that order.  [main] itself is translated line by
    line over a record of the library entry points it calls
    ([Libraries]); the pandas clean-up chain, the node inference of
    StellarGraph and the walk loop of BiasedRandomWalk are executable
    models of the library behaviour the script relies on; Word2Vec
    training (floating point, multi-threaded) and the file system stay
    parameters. *)

From Stdlib Require Import List String Ascii Bool Arith ZArith QArith Qround Lia.
From Stdlib Require Import DecimalString DecimalPos DecimalZ.
Import ListNotations.
Local Open Scope string_scope.
Local Open Scope Z_scope.

(** ** Python values, exceptions and printing *)

Module Py.

(** An instance of a subclass of [Exception]: its class name and the
    text [str(e)] that the script's [except Exception as e] handlers
    interpolate. *)
Record exception : Type := Raise { exn_class : string; exn_text : string }.

(** A call either returns or raises. *)
Inductive result (A : Type) : Type :=
| Ok (a : A)
| Error (e : exception).
Arguments Ok {A} a.
Arguments Error {A} e.

Definition bind {A B} (r : result A) (k : A -> result B) : result B :=
  match r with
  | Ok a => k a
  | Error e => Error e
  end.

(** A scalar as pandas leaves it in an object or integer column. *)
Inductive value : Type :=
| VInt (z : Z)
| VStr (s : string).

Definition value_eq_dec (a b : value) : {a = b} + {a <> b}.
Proof. decide equality; [apply Z.eq_dec | apply string_dec]. Defined.

(** [str(n)] for an integer. *)
Definition str_of_Z (z : Z) : string := NilZero.string_of_int (Z.to_int z).

(** [len(xs)] interpolated in an f-string. *)
Definition str_of_nat (n : nat) : string := str_of_Z (Z.of_nat n).

(** [str(v)], which is what [Series.astype(str)] applies to each cell. *)
Definition str (v : value) : string :=
  match v with
  | VInt z => str_of_Z z
  | VStr s => s
  end.

End Py.

Import Py.

(** ** pandas: the edge frame and the clean-up chain of lines 33-36 *)

Module Pandas.

(** A cell of the frame: [None] is the missing value (NaN). *)
Definition cell : Type := option value.

(** A row of the two-column frame named [source], [target]. *)
Definition row : Type := (cell * cell)%type.

Definition frame : Type := list row.

Definition cell_eq_dec (a b : cell) : {a = b} + {a <> b}.
Proof. decide equality; apply value_eq_dec. Defined.

Definition row_eq_dec (a b : row) : {a = b} + {a <> b}.
Proof. decide equality; apply cell_eq_dec. Defined.

Definition notna (r : row) : bool :=
  match r with
  | (Some _, Some _) => true
  | _ => false
  end.

(** [DataFrame.dropna()]: keep the rows without a missing cell. *)
Definition dropna (f : frame) : frame := filter notna f.

Section Dedup.
Context {A : Type} (eq_dec : forall a b : A, {a = b} + {a <> b}).

(** Keep each element at its first occurrence ([keep='first'], and
    the order of [pd.unique]); [seen] holds what was kept so far. *)
Fixpoint keep_first (seen : list A) (l : list A) : list A :=
  match l with
  | [] => []
  | x :: t =>
      if in_dec eq_dec x seen then keep_first seen t
      else x :: keep_first (x :: seen) t
  end.
End Dedup.

(** [DataFrame.drop_duplicates()]: rows compared on both columns. *)
Definition drop_duplicates (f : frame) : frame := keep_first row_eq_dec [] f.

(** The frame after both columns went through [astype(str)]. *)
Definition edge : Type := (string * string)%type.

Definition astype_str (c : cell) : string :=
  match c with
  | Some v => str v
  | None => "nan"
  end.

Definition as_text (r : row) : edge := (astype_str (fst r), astype_str (snd r)).

Definition columns_astype_str (f : frame) : list edge := map as_text f.

(** Lines 34-36 of [main]. *)
Definition clean (f : frame) : list edge :=
  columns_astype_str (drop_duplicates (dropna f)).





End Pandas.

Import Pandas.

(** ** pandas: reading the edge file *)

Module Csv.

(** What [pd.read_csv(path, sep='\t', header=None, names=['source',
    'target'])] finds at a path: a table of two columns, already split
    into cells with the missing ones recognised, or bytes the parser
    rejects. *)
Inductive file : Type :=
| Table (rows : frame)
| Garbled (why : string).

Definition filesystem : Type := string -> option file.

Definition read_csv (fs : filesystem) (path : string) : result frame :=
  match fs path with
  | None =>
      Error (Raise "FileNotFoundError"
               ("[Errno 2] No such file or directory: '" ++ path ++ "'"))
  | Some (Garbled why) => Error (Raise "ParserError" why)
  | Some (Table rows) => Ok rows
  end.

End Csv.

(** ** StellarGraph: an undirected graph inferred from an edge frame *)

Module Stellar.

Record graph : Type := Graph { node_ids : list string; edge_list : list edge }.

(** [StellarGraph(edges=edges)] without a [nodes] argument: the node ids
    are [pd.unique] of the source column followed by the target column;
    every row stays an edge of its own. *)
Definition StellarGraph (edges : list edge) : graph :=
  {| node_ids := keep_first string_dec [] (map fst edges ++ map snd edges);
     edge_list := edges |}.

Definition nodes (g : graph) : list string := node_ids g.
Definition number_of_nodes (g : graph) : nat := List.length (node_ids g).
Definition number_of_edges (g : graph) : nat := List.length (edge_list g).

(** [graph.neighbor_arrays(v)] of an undirected graph: the targets of
    the edges leaving [v], then the sources of the edges entering it; a
    self loop is listed once. *)
Definition neighbor_arrays (g : graph) (v : string) : list string :=
  map snd (filter (fun e => String.eqb (fst e) v) (edge_list g))
  ++ map fst (filter (fun e => String.eqb (snd e) v && negb (String.eqb (fst e) (snd e)))
                (edge_list g)).

End Stellar.

(** ** BiasedRandomWalk: the second-order walk of node2vec

    Floating-point weights are taken as exact rationals; the generator is
    the sequence of its 53-bit draws. *)

Module Walk.
Import Stellar.

Definition rng : Type := nat -> N.

(** [rs.random()]: the [k]-th draw, a number of [0, 1). *)
Definition random (rs : rng) (k : nat) : Q :=
  Z.of_N (N.modulo (rs k) (2 ^ 53)) # (2 ^ 53).

(** [neighbours == previous_node], entry by entry; there is no previous
    node at the first step. *)
Definition is_previous (previous_node : option string) (x : string) : bool :=
  match previous_node with
  | Some y => String.eqb x y
  | None => false
  end.

(** [np.isin]. *)
Definition isin (x : string) (l : list string) : bool :=
  existsb (String.eqb x) l.

(** The weight array of one step: ones, the entry of the previous node
    multiplied by [ip], the entries that are neither the previous node
    nor one of its neighbours multiplied by [iq]. *)
Definition step_weights (ip iq : Q) (previous_node : option string)
    (previous_node_neighbours neighbours : list string) : list Q :=
  map (fun x =>
         let w := if is_previous previous_node x then (1 * ip)%Q else 1%Q in
         if is_previous previous_node x || isin x previous_node_neighbours
         then w else (w * iq)%Q)
      neighbours.

(** [np.cumsum]. *)
Fixpoint cumsum_from (acc : Q) (ws : list Q) : list Q :=
  match ws with
  | [] => []
  | w :: t => (acc + w)%Q :: cumsum_from (acc + w)%Q t
  end.

Definition cumsum (ws : list Q) : list Q := cumsum_from 0%Q ws.

(** [np.searchsorted(probs, x, side="left")] on an ascending array: the
    number of leading entries below [x]. *)
Fixpoint searchsorted_left (probs : list Q) (x : Q) : nat :=
  match probs with
  | [] => O
  | a :: t => if Qle_bool x a then O else S (searchsorted_left t x)
  end.

(** [naive_weighted_choices(rs, weights)]; the draw is made only when
    the total is not zero. *)
Definition naive_weighted_choices (u : Q) (weights : list Q) : option nat :=
  let probs := cumsum weights in
  let total := last probs 0%Q in
  if Qeq_bool total 0 then None
  else Some (searchsorted_left probs (u * total)%Q).

(** The inner loop [for _ in range(length - 1)]: the nodes appended to
    the walk after [current_node], and the number of draws made. *)
Fixpoint extend (g : graph) (ip iq : Q) (rs : rng) (steps : nat)
    (previous_node : option string) (previous_node_neighbours : list string)
    (current_node : string) (k : nat) : result (list string * nat) :=
  match steps with
  | O => Ok ([], k)
  | S steps' =>
      let neighbours := neighbor_arrays g current_node in
      match neighbours with
      | [] => Ok ([], k)
      | _ :: _ =>
          match naive_weighted_choices (random rs k)
                  (step_weights ip iq previous_node previous_node_neighbours neighbours) with
          | None => Ok ([], k)
          | Some choice =>
              match nth_error neighbours choice with
              | None => Error (Raise "IndexError" "index out of bounds")
              | Some next =>
                  bind (extend g ip iq rs steps' (Some current_node) neighbours next (S k))
                    (fun r => Ok (next :: fst r, snd r))
              end
          end
      end
  end.

(** [for walk_number in range(n)]. *)
Fixpoint walks_from (g : graph) (ip iq : Q) (rs : rng) (steps : nat)
    (n : nat) (node : string) (k : nat) : result (list (list string) * nat) :=
  match n with
  | O => Ok ([], k)
  | S n' =>
      bind (extend g ip iq rs steps None [] node k) (fun w =>
      bind (walks_from g ip iq rs steps n' node (snd w)) (fun r =>
      Ok ((node :: fst w) :: fst r, snd r)))
  end.

(** [for node in nodes]. *)
Fixpoint walks_over (g : graph) (ip iq : Q) (rs : rng) (steps : nat)
    (n : nat) (roots : list string) (k : nat) : result (list (list string) * nat) :=
  match roots with
  | [] => Ok ([], k)
  | node :: rest =>
      bind (walks_from g ip iq rs steps n node k) (fun ws =>
      bind (walks_over g ip iq rs steps n rest (snd ws)) (fun r =>
      Ok ((fst ws ++ fst r)%list, snd r)))
  end.

(** [BiasedRandomWalk(graph).run(nodes=..., length=..., n=..., p=...,
    q=...)]: the parameters are validated, then the three loops run. *)
Definition run (g : graph) (rs : rng) (roots : list string)
    (length n : Z) (p q : Q) : result (list (list string)) :=
  if n <? 1 then
    Error (Raise "ValueError" ("n: expected integer >= 1, found " ++ str_of_Z n))
  else if length <? 1 then
    Error (Raise "ValueError" ("length: expected integer >= 1, found " ++ str_of_Z length))
  else if Qle_bool p 0 then
    Error (Raise "ValueError" "p: expected a positive number")
  else if Qle_bool q 0 then
    Error (Raise "ValueError" "q: expected a positive number")
  else
    bind (walks_over g (1 / p)%Q (1 / q)%Q rs (Z.to_nat (length - 1)) (Z.to_nat n) roots O)
      (fun r => Ok (fst r)).

(** *** The simple random walk, written from the specification's words

    "Each step selects a uniformly random neighbor of the current node",
    with "no second-order bias".  Every step picks, from the draw [u] alone, one of the [k]
    neighbours of the current node: neighbour [i] when
    [i/k < u <= (i+1)/k] (and neighbour [0] for [u = 0]), so that each
    neighbour owns an interval of length [1/k].  No previous node is
    kept. *)
Definition uniform_choice (u : Q) (k : nat) : nat :=
  Z.to_nat (Qceiling (u * inject_Z (Z.of_nat k)) - 1).

Fixpoint simple_extend (g : graph) (rs : rng) (steps : nat)
    (current_node : string) (k : nat) : result (list string * nat) :=
  match steps with
  | O => Ok ([], k)
  | S steps' =>
      let neighbours := neighbor_arrays g current_node in
      match neighbours with
      | [] => Ok ([], k)
      | _ :: _ =>
          match nth_error neighbours
                  (uniform_choice (random rs k) (List.length neighbours)) with
          | None => Error (Raise "IndexError" "index out of bounds")
          | Some next =>
              bind (simple_extend g rs steps' next (S k))
                (fun r => Ok (next :: fst r, snd r))
          end
      end
  end.

Fixpoint simple_walks_from (g : graph) (rs : rng) (steps : nat)
    (n : nat) (node : string) (k : nat) : result (list (list string) * nat) :=
  match n with
  | O => Ok ([], k)
  | S n' =>
      bind (simple_extend g rs steps node k) (fun w =>
      bind (simple_walks_from g rs steps n' node (snd w)) (fun r =>
      Ok ((node :: fst w) :: fst r, snd r)))
  end.

Fixpoint simple_walks_over (g : graph) (rs : rng) (steps : nat)
    (n : nat) (roots : list string) (k : nat) : result (list (list string) * nat) :=
  match roots with
  | [] => Ok ([], k)
  | node :: rest =>
      bind (simple_walks_from g rs steps n node k) (fun ws =>
      bind (simple_walks_over g rs steps n rest (snd ws)) (fun r =>
      Ok ((fst ws ++ fst r)%list, snd r)))
  end.

Definition simple_random_walk (g : graph) (rs : rng) (roots : list string)
    (length n : Z) : result (list (list string)) :=
  if n <? 1 then
    Error (Raise "ValueError" ("n: expected integer >= 1, found " ++ str_of_Z n))
  else if length <? 1 then
    Error (Raise "ValueError" ("length: expected integer >= 1, found " ++ str_of_Z length))
  else
    bind (simple_walks_over g rs (Z.to_nat (length - 1)) (Z.to_nat n) roots O)
      (fun r => Ok (fst r)).

(** A walk of at most [bound] nodes that stops early only where there
    is no neighbour to go to. *)
Definition walk_ok (g : graph) (bound : nat) (w : list string) : Prop :=
  (1 <= List.length w <= bound)%nat /\
  ((List.length w < bound)%nat -> neighbor_arrays g (last w "") = []).

(** Every node of the walk after the first is a neighbour of the one
    before it. *)
Fixpoint is_path (g : graph) (w : list string) : Prop :=
  match w with
  | [] => True
  | a :: t =>
      match t with
      | [] => True
      | b :: _ => In b (neighbor_arrays g a) /\ is_path g t
      end
  end.

(** What the sampler returns for one root: paths that start at it. *)
Definition from_root (g : graph) (root : string) (w : list string) : Prop :=
  hd_error w = Some root /\ is_path g w.

End Walk.

(** ** argparse: the parser declared on lines 17-24

    The declarations are the script's; the engine below is the part of
    [ArgumentParser.parse_args] they exercise: exact option strings,
    unique prefixes of the long ones, [--opt=value], [-xVALUE], the
    default [-h]/[--help] action, [type=int] conversion, the check of
    the required options and the rejection of anything left over. *)

Module Argparse.

Inductive dest : Type :=
| Input | Output | Dimensions | WalkLength | NumWalks | WindowSize | Epochs.

Inductive action : Type :=
| Store (d : dest)
| Help.

(** [parser.add_argument(...)], with the help action every parser has. *)
Definition option_strings : list (string * action) :=
  [ ("-h", Help); ("--help", Help);
    ("--input", Store Input); ("-i", Store Input);
    ("--output", Store Output); ("-o", Store Output);
    ("--dimensions", Store Dimensions); ("-d", Store Dimensions);
    ("--walk_length", Store WalkLength);
    ("--num_walks", Store NumWalks);
    ("--window_size", Store WindowSize);
    ("--epochs", Store Epochs) ].

(** The namespace while the command line is scanned: the required
    options start unset, the others at their [default=]. *)
Record Namespace : Type := {
  ns_input : option string;
  ns_output : option string;
  ns_dimensions : Z;
  ns_walk_length : Z;
  ns_num_walks : Z;
  ns_window_size : Z;
  ns_epochs : Z
}.

Definition defaults : Namespace :=
  {| ns_input := None; ns_output := None; ns_dimensions := 128;
     ns_walk_length := 50; ns_num_walks := 10; ns_window_size := 10;
     ns_epochs := 20 |}.

(** [args] as [main] uses it after a successful parse. *)
Record Args : Type := {
  input : string;
  output : string;
  dimensions : Z;
  walk_length : Z;
  num_walks : Z;
  window_size : Z;
  epochs : Z
}.

Inductive parsed : Type :=
| Parsed (args : Args)
| SystemExit (status : Z).

(** *** Text helpers *)

Definition is_digit (c : ascii) : bool :=
  let n := nat_of_ascii c in (48 <=? n)%nat && (n <=? 57)%nat.

Fixpoint digits_value (acc : Z) (s : string) : option Z :=
  match s with
  | EmptyString => Some acc
  | String c t =>
      if is_digit c
      then digits_value (10 * acc + Z.of_nat (nat_of_ascii c - 48)) t
      else None
  end.

Definition all_digits (s : string) : bool :=
  match s with
  | EmptyString => false
  | _ => match digits_value 0 s with Some _ => true | None => false end
  end.

(** [int(s)] on a decimal literal with an optional sign; [None] is the
    [ValueError] that argparse turns into a usage error. *)
Definition int (s : string) : option Z :=
  match s with
  | String "-" t => if all_digits t then option_map Z.opp (digits_value 0 t) else None
  | String "+" t => if all_digits t then digits_value 0 t else None
  | _ => if all_digits s then digits_value 0 s else None
  end.

(** [s.startswith(p)]. *)
Fixpoint startswith (s p : string) {struct p} : bool :=
  match p with
  | EmptyString => true
  | String a p' =>
      match s with
      | EmptyString => false
      | String b s' => Ascii.eqb a b && startswith s' p'
      end
  end.

(** [s.split('=', 1)] when [s] has an [=]. *)
Fixpoint partition_eq (s : string) : option (string * string) :=
  match s with
  | EmptyString => None
  | String c t =>
      if Ascii.eqb c "=" then Some (EmptyString, t)
      else match partition_eq t with
           | Some (a, b) => Some (String c a, b)
           | None => None
           end
  end.

Fixpoint has_space (s : string) : bool :=
  match s with
  | EmptyString => false
  | String c t => Ascii.eqb c " " || has_space t
  end.

(** The pattern [^-\d+$|^-\d*\.\d+$] of a negative number. *)
Fixpoint digits_then_fraction (s : string) : bool :=
  match s with
  | EmptyString => false
  | String "." t => all_digits t
  | String c t => is_digit c && digits_then_fraction t
  end.

Definition negative_number (s : string) : bool :=
  match s with
  | String "-" t => all_digits t || digits_then_fraction t
  | _ => false
  end.

Fixpoint lookup (s : string) (table : list (string * action)) : option action :=
  match table with
  | [] => None
  | (o, a) :: t => if String.eqb o s then Some a else lookup s t
  end.

(** *** Classification of one argument ([_parse_optional]) *)

Inductive token : Type :=
| Positional
| Flag (a : action) (short : bool) (explicit : option string)
| Ambiguous
| Unknown.

(** The option strings that start with [p]. *)
Definition abbreviations (p : string) : list action :=
  map snd (filter (fun oa => startswith (fst oa) p) option_strings).

(** [arg[:2]] and [arg[2:]]. *)
Definition head2 (arg : string) : string := substring 0 2 arg.
Definition tail2 (arg : string) : string := substring 2 (String.length arg - 2) arg.

(** An [=] after an exact option string. *)
Definition split_exact (arg : string) : option token :=
  match partition_eq arg with
  | Some (o, v) =>
      match lookup o option_strings with
      | Some a => Some (Flag a (negb (startswith o "--")) (Some v))
      | None => None
      end
  | None => None
  end.

(** [_get_option_tuples]: the prefix matches of a long spelling, or the
    short option in the first two characters with the rest glued on. *)
Definition option_tuples (arg : string) : list token :=
  if startswith arg "--" then
    match partition_eq arg with
    | Some (o, v) => map (fun a => Flag a false (Some v)) (abbreviations o)
    | None => map (fun a => Flag a false None) (abbreviations arg)
    end
  else
    match lookup (head2 arg) option_strings with
    | Some a => [Flag a true (Some (tail2 arg))]
    | None => []
    end.

Definition classify (arg : string) : token :=
  if negb (startswith arg "-") then Positional
  else
    match lookup arg option_strings with
    | Some a => Flag a (negb (startswith arg "--")) None
    | None =>
        if (String.length arg =? 1)%nat then Positional
        else
          match split_exact arg with
          | Some t => t
          | None =>
              match option_tuples arg with
              | [t] => t
              | _ :: _ :: _ => Ambiguous
              | [] =>
                  if negative_number arg then Positional
                  else if has_space arg then Positional
                  else Unknown
              end
          end
    end.

(** *** Taking the actions *)

Definition store (d : dest) (v : string) (ns : Namespace) : option Namespace :=
  let with_int (k : Z -> Namespace) := option_map k (int v) in
  match d with
  | Input =>
      Some {| ns_input := Some v; ns_output := ns_output ns;
              ns_dimensions := ns_dimensions ns; ns_walk_length := ns_walk_length ns;
              ns_num_walks := ns_num_walks ns; ns_window_size := ns_window_size ns;
              ns_epochs := ns_epochs ns |}
  | Output =>
      Some {| ns_input := ns_input ns; ns_output := Some v;
              ns_dimensions := ns_dimensions ns; ns_walk_length := ns_walk_length ns;
              ns_num_walks := ns_num_walks ns; ns_window_size := ns_window_size ns;
              ns_epochs := ns_epochs ns |}
  | Dimensions =>
      with_int (fun z =>
           {| ns_input := ns_input ns; ns_output := ns_output ns;
              ns_dimensions := z; ns_walk_length := ns_walk_length ns;
              ns_num_walks := ns_num_walks ns; ns_window_size := ns_window_size ns;
              ns_epochs := ns_epochs ns |})
  | WalkLength =>
      with_int (fun z =>
           {| ns_input := ns_input ns; ns_output := ns_output ns;
              ns_dimensions := ns_dimensions ns; ns_walk_length := z;
              ns_num_walks := ns_num_walks ns; ns_window_size := ns_window_size ns;
              ns_epochs := ns_epochs ns |})
  | NumWalks =>
      with_int (fun z =>
           {| ns_input := ns_input ns; ns_output := ns_output ns;
              ns_dimensions := ns_dimensions ns; ns_walk_length := ns_walk_length ns;
              ns_num_walks := z; ns_window_size := ns_window_size ns;
              ns_epochs := ns_epochs ns |})
  | WindowSize =>
      with_int (fun z =>
           {| ns_input := ns_input ns; ns_output := ns_output ns;
              ns_dimensions := ns_dimensions ns; ns_walk_length := ns_walk_length ns;
              ns_num_walks := ns_num_walks ns; ns_window_size := z;
              ns_epochs := ns_epochs ns |})
  | Epochs =>
      with_int (fun z =>
           {| ns_input := ns_input ns; ns_output := ns_output ns;
              ns_dimensions := ns_dimensions ns; ns_walk_length := ns_walk_length ns;
              ns_num_walks := ns_num_walks ns; ns_window_size := ns_window_size ns;
              ns_epochs := z |})
  end.

(** Whether the argument may serve as the value of an option. *)
Definition is_value (arg : string) : bool :=
  match classify arg with
  | Positional => true
  | _ => false
  end.

(** A glued [-hXYZ]: the characters after [-h] are read as further
    short options; the help action fires once the whole argument was
    accepted. *)
Fixpoint help_cluster (x : string) (next : option string) : Z :=
  match x with
  | EmptyString => 0
  | String c t =>
      match lookup (String "-" (String c EmptyString)) option_strings with
      | Some Help => help_cluster t next
      | Some (Store d) =>
          let v := match t with
                   | EmptyString => match next with
                                    | Some a => if is_value a then Some a else None
                                    | None => None
                                    end
                   | _ => Some t
                   end in
          match v with
          | Some v => match store d v defaults with Some _ => 0 | None => 2 end
          | None => 2
          end
      | None => 2
      end
  end.

Inductive scanned : Type :=
| Scanned (ns : Namespace) (extras : list string)
| Stopped (status : Z).

(** The left-to-right loop over the arguments. *)
Fixpoint consume (argv : list string) (ns : Namespace)
    (extras : list string) : scanned :=
  match argv with
  | [] => Scanned ns extras
  | arg :: rest =>
      if String.eqb arg "--" then Scanned ns (extras ++ rest)%list
      else
        match classify arg with
        | Positional | Unknown => consume rest ns (extras ++ [arg])%list
        | Ambiguous => Stopped 2
        | Flag Help _ None => Stopped 0
        | Flag Help true (Some x) => Stopped (help_cluster x (hd_error rest))
        | Flag Help false (Some _) => Stopped 2
        | Flag (Store d) _ (Some v) =>
            match store d v ns with
            | Some ns' => consume rest ns' extras
            | None => Stopped 2
            end
        | Flag (Store d) _ None =>
            match rest with
            | v :: rest' =>
                if is_value v then
                  match store d v ns with
                  | Some ns' => consume rest' ns' extras
                  | None => Stopped 2
                  end
                else Stopped 2
            | [] => Stopped 2
            end
        end
  end.

(** An ambiguous abbreviation anywhere before [--] is reported while
    the arguments are classified, before any action is taken. *)
Fixpoint ambiguous_somewhere (argv : list string) : bool :=
  match argv with
  | [] => false
  | arg :: rest =>
      if String.eqb arg "--" then false
      else match classify arg with
           | Ambiguous => true
           | _ => ambiguous_somewhere rest
           end
  end.

(** [parser.parse_args()] on [sys.argv[1:]]. *)
Definition parse_args (argv : list string) : parsed :=
  if ambiguous_somewhere argv then SystemExit 2
  else
    match consume argv defaults [] with
    | Stopped status => SystemExit status
    | Scanned ns extras =>
        match ns_input ns, ns_output ns, extras with
        | Some i, Some o, [] =>
            Parsed {| input := i; output := o; dimensions := ns_dimensions ns;
                      walk_length := ns_walk_length ns; num_walks := ns_num_walks ns;
                      window_size := ns_window_size ns; epochs := ns_epochs ns |}
        | _, _, _ => SystemExit 2
        end
    end.

(** *** Which arguments can name an option

    An option string is reached by itself, by itself with a value glued
    on, or (a long one) by a prefix of at least one character after the
    dashes; all of these start with its [key]. *)
Definition key (o : string) : string :=
  if startswith o "--" then substring 0 3 o else o.

Definition dest_eq_dec (a b : dest) : {a = b} + {a <> b}.
Proof. decide equality. Defined.

Definition action_eqb (a b : action) : bool :=
  match a, b with
  | Help, Help => true
  | Store d, Store d' => if dest_eq_dec d d' then true else false
  | _, _ => false
  end.

(** [arg] starts like one of the option strings of [a]: for
    [Store Input], with [-i] or [--i]. *)
Definition spells (a : action) (arg : string) : bool :=
  existsb (fun oa => action_eqb (snd oa) a && startswith arg (key (fst oa)))
    option_strings.

Definition mentions (a : action) (argv : list string) : bool :=
  existsb (spells a) argv.

(** The attribute of the namespace an option stores to. *)
Definition slot (d : dest) (ns : Namespace) : option string + Z :=
  match d with
  | Input => inl (ns_input ns)
  | Output => inl (ns_output ns)
  | Dimensions => inr (ns_dimensions ns)
  | WalkLength => inr (ns_walk_length ns)
  | NumWalks => inr (ns_num_walks ns)
  | WindowSize => inr (ns_window_size ns)
  | Epochs => inr (ns_epochs ns)
  end.

(** A text with an ASCII letter in it, which [int] never accepts. *)
Definition is_letter (c : ascii) : bool :=
  let n := nat_of_ascii c in
  ((65 <=? n)%nat && (n <=? 90)%nat) || ((97 <=? n)%nat && (n <=? 122)%nat).

Fixpoint has_letter (s : string) : bool :=
  match s with
  | EmptyString => false
  | String c t => is_letter c || has_letter t
  end.

(** [arg] is taken for an option that stores to [d]. *)
Definition resolves_to (d : dest) (arg : string) : bool :=
  match classify arg with
  | Flag (Store d') _ _ => if dest_eq_dec d' d then true else false
  | _ => false
  end.

(** The options declared with [type=int]. *)
Definition int_dest (d : dest) : bool :=
  match d with
  | Input | Output => false
  | _ => true
  end.

End Argparse.

(** ** The script *)

Module Script.
Import Argparse.

Section Main.

(** A component of an embedding vector (a float32 of numpy). *)
Variable scalar : Type.

Definition vector : Type := list scalar.

(** [model.wv]: the vectors by token. *)
Definition KeyedVectors : Type := list (string * vector).

Fixpoint get {V : Type} (d : list (string * V)) (key : string) : option V :=
  match d with
  | [] => None
  | (k, v) :: t => if String.eqb k key then Some v else get t key
  end.

(** [model.wv[key]]. *)
Definition getitem (wv : KeyedVectors) (key : string) : result vector :=
  match get wv key with
  | Some v => Ok v
  | None => Error (Raise "KeyError" ("Key '" ++ key ++ "' not present"))
  end.

(** [d[key] = v] on a dict, which keeps the place of a key it has. *)
Fixpoint setitem {V : Type} (d : list (string * V)) (key : string) (v : V)
    : list (string * V) :=
  match d with
  | [] => [(key, v)]
  | (k, v') :: t =>
      if String.eqb k key then (k, v) :: t else (k, v') :: setitem t key v
  end.

(** The table [pd.DataFrame.from_dict(d, orient='index')] builds: a row
    per key, as many columns as the longest vector, shorter rows padded
    with missing cells. *)
Record DataFrame : Type := {
  index_name : option string;
  index : list string;
  columns : list nat;
  data : list (list (option scalar))
}.

Definition pad (width : nat) (v : vector) : list (option scalar) :=
  (map Some v ++ repeat None (width - List.length v))%list.

Definition from_dict (d : list (string * vector)) : DataFrame :=
  let width := fold_right Nat.max O (map (fun kv => List.length (snd kv)) d) in
  {| index_name := None;
     index := map fst d;
     columns := seq 0 width;
     data := map (fun kv => pad width (snd kv)) d |}.

Definition set_index_name (df : DataFrame) (name : string) : DataFrame :=
  {| index_name := Some name; index := index df; columns := columns df;
     data := data df |}.

Definition shape (df : DataFrame) : nat * nat :=
  (List.length (index df), List.length (columns df)).

(** The calls that leave the script. *)
Record Libraries : Type := {
  gensim_version : string;
  (** [pd.read_csv(path, sep='\t', header=None, names=[...])] *)
  read_csv : string -> result frame;
  (** [StellarGraph(edges=edges)] *)
  StellarGraph : list edge -> result Stellar.graph;
  (** [BiasedRandomWalk(graph).run(nodes=, length=, n=, p=, q=)] *)
  BiasedRandomWalk_run :
    Stellar.graph -> list string -> Z -> Z -> Q -> Q -> result (list (list string));
  (** [Word2Vec(sentences=, vector_size=, window=, min_count=, sg=,
      workers=, epochs=).wv] *)
  Word2Vec :
    list (list string) -> Z -> Z -> Z -> Z -> Z -> Z -> result KeyedVectors;
  (** [df.to_csv(path)] *)
  to_csv : DataFrame -> string -> result unit
}.

(** How a run ends: [sys.exit(status)] (or the end of [main], status
    0), or an exception nobody caught, which the interpreter reports as
    a traceback with status 1. *)
Inductive ending : Type :=
| Exited (status : Z)
| Traceback (e : exception).

Record outcome : Type := {
  ended : ending;
  (** the lines [main] printed *)
  printed : list string;
  (** the tables [to_csv] wrote, by path *)
  written : list (string * DataFrame)
}.

Definition exit_status (o : outcome) : Z :=
  match ended o with
  | Exited status => status
  | Traceback _ => 1
  end.

(** Lines 85-87: the loop that fills [embeddings]. *)
Fixpoint extract (wv : KeyedVectors) (node_ids : list string)
    (embeddings : list (string * vector)) : result (list (string * vector)) :=
  match node_ids with
  | [] => Ok embeddings
  | node_id :: rest =>
      bind (getitem wv (str (VStr node_id)))
        (fun v => extract wv rest (setitem embeddings node_id v))
  end.

Definition show_shape (s : nat * nat) : string :=
  "(" ++ str_of_nat (fst s) ++ ", " ++ str_of_nat (snd s) ++ ")".

(** [print(line)]: one more line on the standard output. *)
Definition print (out : list string) (line : string) : list string :=
  (out ++ [line])%list.

Definition main (L : Libraries) (argv : list string) : outcome :=
  match parse_args argv with
  | SystemExit status => {| ended := Exited status; printed := []; written := [] |}
  | Parsed args =>
      let out := print [] ("Gensim version: " ++ gensim_version L) in
      let out := print out "Loading data..." in
      match read_csv L (input args) with
      | Error e =>
          {| ended := Exited 1;
             printed := print out ("Error loading data: " ++ exn_text e);
             written := [] |}
      | Ok edges =>
          let edges := clean edges in
          let out := print out ("Total unique edges: "
                                  ++ str_of_nat (List.length edges)) in
          let out := print out "Creating graph..." in
          match StellarGraph L edges with
          | Error e =>
              {| ended := Exited 1;
                 printed := print out ("Error creating graph: " ++ exn_text e);
                 written := [] |}
          | Ok graph =>
              let out := print out ("Graph created: "
                                      ++ str_of_nat (Stellar.number_of_nodes graph)
                                      ++ " nodes, "
                                      ++ str_of_nat (Stellar.number_of_edges graph)
                                      ++ " edges") in
              let out := print out "Generating random walks..." in
              match BiasedRandomWalk_run L graph (Stellar.nodes graph)
                      (walk_length args) (num_walks args) 1%Q 1%Q with
              | Error e =>
                  {| ended := Exited 1;
                     printed := print out ("Error generating walks: " ++ exn_text e);
                     written := [] |}
              | Ok walks =>
                  let out := print out ("Generated " ++ str_of_nat (List.length walks)
                                          ++ " walks") in
                  let out := print out "Training Word2Vec model..." in
                  let str_walks := map (map (fun node => str (VStr node))) walks in
                  match Word2Vec L str_walks (dimensions args) (window_size args)
                          1 1 4 (epochs args) with
                  | Error e => {| ended := Traceback e; printed := out; written := [] |}
                  | Ok wv =>
                      let out := print out "Extracting embeddings..." in
                      match extract wv (Stellar.nodes graph) [] with
                      | Error e =>
                          {| ended := Traceback e; printed := out; written := [] |}
                      | Ok embeddings =>
                          let out := print out ("Saving embeddings to " ++ output args
                                                  ++ "...") in
                          let embeddings_df :=
                            set_index_name (from_dict embeddings) "gene_id" in
                          match to_csv L embeddings_df (output args) with
                          | Error e =>
                              {| ended := Traceback e; printed := out; written := [] |}
                          | Ok _ =>
                              let out := print out ("Embeddings saved! Shape: "
                                                      ++ show_shape (shape embeddings_df)) in
                              let out := print out ("Number of genes: "
                                                      ++ str_of_nat (List.length embeddings)) in
                              {| ended := Exited 0;
                                 printed := out;
                                 written := [(output args, embeddings_df)] |}
                          end
                      end
                  end
              end
          end
      end
  end.

(** The libraries as modelled above, over a file system, a random
    generator, a trainer and a writer. *)
Definition installed (version : string) (fs : Csv.filesystem) (rs : Walk.rng)
    (trainer : list (list string) -> Z -> Z -> Z -> Z -> Z -> Z -> result KeyedVectors)
    (writer : DataFrame -> string -> result unit) : Libraries :=
  {| gensim_version := version;
     read_csv := Csv.read_csv fs;
     StellarGraph := fun edges => Ok (Stellar.StellarGraph edges);
     BiasedRandomWalk_run := fun g roots length n p q => Walk.run g rs roots length n p q;
     Word2Vec := trainer;
     to_csv := writer |}.

(** What the script relies on from gensim: every vector of a model
    has [vector_size] components. *)
Definition respects_vector_size (L : Libraries) : Prop :=
  forall sentences vector_size window min_count sg workers epochs wv,
    Word2Vec L sentences vector_size window min_count sg workers epochs = Ok wv ->
    forall token v, In (token, v) wv -> Z.of_nat (List.length v) = vector_size.

(** [df.loc[key]]: the row of the table at an index entry. *)
Definition loc (df : DataFrame) (key : string) : option (list (option scalar)) :=
  get (combine (index df) (data df)) key.

(** What [min_count=1] asks of gensim: no token of the sentences is left
    out of the vocabulary. *)
Definition keeps_every_token
    (trainer : list (list string) -> Z -> Z -> Z -> Z -> Z -> Z -> result KeyedVectors)
    : Prop :=
  forall sentences vector_size window min_count sg workers epochs wv,
    trainer sentences vector_size window min_count sg workers epochs = Ok wv ->
    forall sentence token,
      In sentence sentences -> In token sentence -> get wv token <> None.

End Main.

Arguments gensim_version {scalar} l.
Arguments read_csv {scalar} l _.
Arguments StellarGraph {scalar} l _.
Arguments BiasedRandomWalk_run {scalar} l _ _ _ _ _ _.
Arguments Word2Vec {scalar} l _ _ _ _ _ _ _.
Arguments to_csv {scalar} l _ _.
Arguments ended {scalar} o.
Arguments printed {scalar} o.
Arguments written {scalar} o.
Arguments index_name {scalar} d.
Arguments index {scalar} d.
Arguments columns {scalar} d.
Arguments data {scalar} d.
Arguments getitem {scalar} wv key.
Arguments extract {scalar} wv node_ids embeddings.
Arguments from_dict {scalar} d.
Arguments set_index_name {scalar} df name.
Arguments shape {scalar} df.
Arguments main {scalar} L argv.
Arguments installed {scalar} version fs rs trainer writer.
Arguments exit_status {scalar} o.
Arguments loc {scalar} df key.
Arguments keeps_every_token {scalar} trainer.
Arguments respects_vector_size {scalar} L.

End Script.

(** ** A small installation to run the script on

    A file system with one edge file, a counting generator, and a stand-in
    for the trainer that gives every token of the walks a vector of
    [vector_size] zeros (it fails, like gensim, when there is nothing to
    build a vocabulary from). *)

Module Fixture.
Import Script.

Definition triangle : frame :=
  [ (Some (VStr "A"), Some (VStr "B"));
    (Some (VStr "B"), Some (VStr "C"));
    (Some (VStr "A"), Some (VStr "C")) ].

Definition fs : Csv.filesystem :=
  fun path => if String.eqb path "edges.tsv" then Some (Csv.Table triangle) else None.

Definition rs : Walk.rng := fun k => N.of_nat k.

Definition zeros (sentences : list (list string)) (vector_size : Z)
    (window min_count sg workers epochs : Z) : result (KeyedVectors Z) :=
  match List.concat sentences with
  | [] => Error (Raise "RuntimeError"
                   "you must first build vocabulary before training the model")
  | tokens =>
      if vector_size <? 0 then Error (Raise "ValueError" "negative dimensions are not allowed")
      else Ok (map (fun t => (t, repeat 0 (Z.to_nat vector_size)))
                 (keep_first string_dec [] tokens))
  end.

(** A trainer that loses the vocabulary. *)
Definition forgetful (sentences : list (list string)) (vector_size : Z)
    (window min_count sg workers epochs : Z) : result (KeyedVectors Z) :=
  Ok [].

Definition writes (df : DataFrame Z) (path : string) : result unit := Ok tt.

Definition disk_full (df : DataFrame Z) (path : string) : result unit :=
  Error (Raise "OSError" "[Errno 28] No space left on device").

Definition libraries : Libraries Z := installed "4.3.2" fs rs zeros writes.

Definition argv : list string :=
  ["--input"; "edges.tsv"; "-o"; "out.csv"; "-d"; "4";
   "--walk_length"; "5"; "--num_walks"; "2"].

End Fixture.

(** * Properties *)

(** ** The loader *)

Module PandasFacts.
Import Pandas.

Section KeepFirst.
Context {A : Type} (eq_dec : forall a b : A, {a = b} + {a <> b}).

Lemma keep_first_In (l seen : list A) (x : A) :
  In x (keep_first eq_dec seen l) <-> In x l /\ ~ In x seen.
Proof.
  revert seen; induction l as [|y t IH]; intros seen; simpl.
  - tauto.
  - destruct (in_dec eq_dec y seen) as [Hy|Hy].
    + rewrite IH. split.
      * intros [H1 H2]; auto.
      * intros [[->|H1] H2]; [contradiction | auto].
    + simpl. rewrite IH. simpl. split.
      * intros [->|[H1 H2]]; auto.
      * intros [[->|H1] H2]; auto.
        destruct (eq_dec y x) as [->|Hne]; auto.
        right. split; auto. intros [E|E]; auto.
Qed.

Lemma keep_first_NoDup (l seen : list A) : NoDup (keep_first eq_dec seen l).
Proof.
  revert seen; induction l as [|y t IH]; intros seen; simpl.
  - constructor.
  - destruct (in_dec eq_dec y seen); auto.
    constructor; auto.
    rewrite keep_first_In. simpl. tauto.
Qed.


Lemma keep_first_pair (x y : A) :
  x <> y -> keep_first eq_dec [] [x; y] = [x; y].
Proof.
  intros H. simpl. destruct (eq_dec x y) as [E|E]; [contradiction | reflexivity].
Qed.

Lemma keep_first_idempotent (l : list A) :
  keep_first eq_dec [] (keep_first eq_dec [] l) = keep_first eq_dec [] l.
Proof.
  assert (G : forall (m seen : list A), NoDup m -> (forall x, In x m -> ~ In x seen) ->
                keep_first eq_dec seen m = m).
  { induction m as [|y t IH]; intros seen Hnd Hs; simpl; auto.
    inversion Hnd; subst.
    destruct (in_dec eq_dec y seen) as [Hy|Hy].
    - exfalso. apply (Hs y); simpl; auto.
    - f_equal. apply IH; auto.
      intros x Hx [E|E]; [subst; contradiction | apply (Hs x); simpl; auto]. }
  apply G; [apply keep_first_NoDup | auto].
Qed.
End KeepFirst.

Lemma dropna_In (f : frame) (r : row) :
  In r (dropna f) <-> In r f /\ exists a b, r = (Some a, Some b).
Proof.
  unfold dropna. rewrite filter_In. split; intros [H1 H2]; split; auto.
  - destruct r as [[a|] [b|]]; simpl in H2; try discriminate. eauto.
  - destruct H2 as (a & b & ->). reflexivity.
Qed.

Lemma kept_In (f : frame) (r : row) :
  In r (drop_duplicates (dropna f)) <-> In r f /\ exists a b, r = (Some a, Some b).
Proof.
  unfold drop_duplicates. rewrite keep_first_In, dropna_In. simpl. tauto.
Qed.

Lemma kept_NoDup (f : frame) : NoDup (drop_duplicates (dropna f)).
Proof. apply keep_first_NoDup. Qed.

Lemma clean_length (f : frame) :
  List.length (clean f) = List.length (drop_duplicates (dropna f)).
Proof. unfold clean, columns_astype_str. apply length_map. Qed.

Lemma clean_In (f : frame) (a b : value) :
  In (Some a, Some b) f -> In (str a, str b) (clean f).
Proof.
  intros H. unfold clean, columns_astype_str.
  apply in_map_iff. exists (Some a, Some b). split; auto.
  apply kept_In. eauto.
Qed.


End PandasFacts.

Module LoaderClaims.
Import Pandas PandasFacts.
Local Open Scope list_scope.




(** The scenario of the specification: [A\tB] twice is one edge. *)
Example duplicated_edge_counted_once :
  List.length (clean [(Some (VStr "A"), Some (VStr "B"));
                      (Some (VStr "A"), Some (VStr "B"))]) = 1%nat.
Proof. reflexivity. Qed.







(** C10.  Duplicates are ordered pairs: when the frame has a row [a, b]
    and a row [b, a] with [a] and [b] different identifiers, each
    survives exactly once, both are among the loaded edges and counted,
    and the undirected graph built from them keeps both as edges while
    making each endpoint a neighbour of the other. *)
Theorem reversed_pair_kept (f : frame) (a b : value) :
  a <> b -> In (Some a, Some b) f -> In (Some b, Some a) f ->
  count_occ row_eq_dec (drop_duplicates (dropna f)) (Some a, Some b) = 1%nat /\
  count_occ row_eq_dec (drop_duplicates (dropna f)) (Some b, Some a) = 1%nat /\
  In (str a, str b) (clean f) /\ In (str b, str a) (clean f) /\
  (2 <= List.length (clean f))%nat /\
  clean [(Some a, Some b); (Some b, Some a)] = [(str a, str b); (str b, str a)] /\
  Stellar.number_of_edges (Stellar.StellarGraph (clean f)) = List.length (clean f) /\
  In (str b) (Stellar.neighbor_arrays (Stellar.StellarGraph (clean f)) (str a)) /\
  In (str a) (Stellar.neighbor_arrays (Stellar.StellarGraph (clean f)) (str b)).
Proof.
  intros Hab Ha Hb.
  assert (Ka : In (Some a, Some b) (drop_duplicates (dropna f))) by (apply kept_In; eauto).
  assert (Kb : In (Some b, Some a) (drop_duplicates (dropna f))) by (apply kept_In; eauto).
  pose proof (kept_NoDup f) as Hnd.
  repeat split.
  - apply NoDup_count_occ'; auto.
  - apply NoDup_count_occ'; auto.
  - now apply clean_In.
  - now apply clean_In.
  - rewrite clean_length.
    apply (NoDup_incl_length (l := [(Some a, Some b); (Some b, Some a)])).
    + constructor; [|constructor; [|constructor]]; simpl; auto.
      intros [E|[]]. injection E as E1 E2. congruence.
    + intros r [<-|[<-|[]]]; auto.
  - unfold clean, drop_duplicates, dropna.
    change (filter notna [(Some a, Some b); (Some b, Some a)])
      with [(Some a, Some b); (Some b, Some a)].
    rewrite keep_first_pair; [reflexivity|].
    intros E. injection E as E1 E2. congruence.
  - unfold Stellar.neighbor_arrays. simpl. apply in_or_app. left.
    apply in_map_iff. exists (str a, str b). split; auto.
    apply filter_In. split; [now apply clean_In|].
    simpl. apply String.eqb_refl.
  - unfold Stellar.neighbor_arrays. simpl. apply in_or_app. left.
    apply in_map_iff. exists (str b, str a). split; auto.
    apply filter_In. split; [now apply clean_In|].
    simpl. apply String.eqb_refl.
Qed.

Lemma reversed_pair_kept_witness :
  (2 <= List.length (clean [(Some (VStr "A"), Some (VStr "B"));
                            (Some (VStr "B"), Some (VStr "A"))]))%nat.
Proof.
  apply (reversed_pair_kept
           [(Some (VStr "A"), Some (VStr "B")); (Some (VStr "B"), Some (VStr "A"))]
           (VStr "A") (VStr "B")).
  - discriminate.
  - simpl. auto.
  - simpl. auto.
Defined.

End LoaderClaims.

(** ** The walk sampler *)

Module WalkFacts.
Import Stellar Walk.
Local Open Scope list_scope.

Lemma random_range (rs : rng) (k : nat) :
  (0 <= random rs k)%Q /\ (random rs k < 1)%Q.
Proof.
  unfold random.
  assert (H : (rs k mod 2 ^ 53 < 2 ^ 53)%N) by (apply N.mod_lt; discriminate).
  apply N2Z.inj_lt in H.
  pose proof (N2Z.is_nonneg (rs k mod 2 ^ 53)) as H0.
  change (Z.of_N (2 ^ 53)) with (Z.pos (2 ^ 53)) in H.
  generalize dependent (Z.of_N (rs k mod 2 ^ 53)). intros m H H0.
  unfold Qle, Qlt. cbn [Qnum Qden].
  split; lia.
Qed.

Lemma step_weights_unbiased (previous_node : option string)
    (previous_node_neighbours neighbours : list string) :
  step_weights 1 1 previous_node previous_node_neighbours neighbours
  = map (fun _ => 1%Q) neighbours.
Proof.
  unfold step_weights. apply map_ext. intros x.
  destruct (is_previous previous_node x), (isin x previous_node_neighbours);
    reflexivity.
Qed.

Lemma ceiling_le (x : Q) (n : Z) : (x <= inject_Z n)%Q <-> (Qceiling x <= n)%Z.
Proof.
  split; intros H.
  - apply Qceiling_resp_le in H. now rewrite Qceiling_Z in H.
  - eapply Qle_trans; [apply Qle_ceiling|]. now rewrite <- Zle_Qle.
Qed.

(** Searching the running sums [a+1, a+2, ..., a+k]. *)
Lemma searchsorted_ones (k : nat) (acc : Q) (a : Z) (x : Q) :
  (acc == inject_Z a)%Q ->
  searchsorted_left (cumsum_from acc (repeat 1%Q k)) x
  = Nat.min k (Z.to_nat (Qceiling x - 1 - a)).
Proof.
  revert acc a; induction k as [|k IH]; intros acc a H.
  - reflexivity.
  - cbn [repeat cumsum_from searchsorted_left].
    assert (E : (acc + 1 == inject_Z (a + 1))%Q)
      by (rewrite inject_Z_plus, H; reflexivity).
    destruct (Qle_bool x (acc + 1)) eqn:B.
    + apply Qle_bool_iff in B. rewrite E in B. apply ceiling_le in B.
      replace (Z.to_nat (Qceiling x - 1 - a)) with O by lia.
      reflexivity.
    + assert (C : ~ (x <= acc + 1)%Q)
        by (intros C; apply Qle_bool_iff in C; congruence).
      rewrite E, ceiling_le in C.
      rewrite (IH _ (a + 1) E).
      replace (Z.to_nat (Qceiling x - 1 - a))
        with (S (Z.to_nat (Qceiling x - 1 - (a + 1)))) by lia.
      reflexivity.
Qed.

Lemma last_cumsum_ones (k : nat) (acc : Q) (a : Z) :
  (acc == inject_Z a)%Q ->
  (last (cumsum_from acc (repeat 1%Q (S k))) 0 == inject_Z (a + Z.of_nat (S k)))%Q.
Proof.
  revert acc a; induction k as [|k IH]; intros acc a H.
  - cbn [repeat cumsum_from last].
    rewrite inject_Z_plus, H. reflexivity.
  - assert (E : (acc + 1 == inject_Z (a + 1))%Q)
      by (rewrite inject_Z_plus, H; reflexivity).
    specialize (IH _ _ E).
    replace (a + Z.of_nat (S (S k))) with (a + 1 + Z.of_nat (S k)) by lia.
    rewrite <- IH. reflexivity.
Qed.

Lemma scaled_draw_le (u : Q) (k : nat) :
  (u <= 1)%Q -> (Qceiling (u * inject_Z (Z.of_nat k)) <= Z.of_nat k)%Z.
Proof.
  intros Hu. apply ceiling_le.
  rewrite <- (Qmult_1_l (inject_Z (Z.of_nat k))) at 2.
  apply Qmult_le_compat_r; auto.
  change 0%Q with (inject_Z 0). rewrite <- Zle_Qle. lia.
Qed.

(** With equal weights the weighted choice is the uniform one. *)
Lemma choice_ones (u : Q) (neighbours : list string) :
  neighbours <> [] -> (u <= 1)%Q ->
  naive_weighted_choices u (map (fun _ => 1%Q) neighbours)
  = Some (uniform_choice u (List.length neighbours)).
Proof.
  intros Hne Hu. rewrite map_const.
  destruct (List.length neighbours) as [|k] eqn:Hk.
  - destruct neighbours; [contradiction | discriminate].
  - unfold naive_weighted_choices, cumsum.
    assert (Ht : (last (cumsum_from 0 (repeat 1%Q (S k))) 0
                  == inject_Z (Z.of_nat (S k)))%Q).
    { rewrite (last_cumsum_ones k 0 0); reflexivity. }
    destruct (Qeq_bool _ 0) eqn:B.
    + apply Qeq_bool_iff in B. rewrite Ht in B.
      unfold Qeq in B. cbn [Qnum Qden inject_Z] in B. lia.
    + f_equal. rewrite (searchsorted_ones (S k) 0 0) by reflexivity.
      unfold uniform_choice. rewrite Ht.
      pose proof (scaled_draw_le u (S k) Hu). lia.
Qed.

Lemma uniform_choice_lt (u : Q) (k : nat) :
  (u <= 1)%Q -> (0 < k)%nat -> (uniform_choice u k < k)%nat.
Proof.
  intros Hu Hk. unfold uniform_choice.
  pose proof (scaled_draw_le u k Hu). lia.
Qed.


End WalkFacts.

Module WalkClaims.
Import Stellar Walk WalkFacts.
Local Open Scope list_scope.

Section Graph.
Variable g : graph.
Variable rs : rng.

Lemma extend_unbiased (steps : nat) :
  forall previous_node previous_node_neighbours current_node k,
    extend g 1 1 rs steps previous_node previous_node_neighbours current_node k
    = simple_extend g rs steps current_node k.
Proof.
  induction steps as [|steps IH]; intros prev pn cur k.
  - reflexivity.
  - cbn [extend simple_extend]. cbv zeta.
    destruct (neighbor_arrays g cur) as [|x t] eqn:Hn; [reflexivity|].
    rewrite step_weights_unbiased, choice_ones.
    + destruct (nth_error (x :: t) _); [|reflexivity].
      now rewrite IH.
    + discriminate.
    + apply Qlt_le_weak, random_range.
Qed.

Lemma walks_from_unbiased (steps n : nat) (node : string) :
  forall k, walks_from g 1 1 rs steps n node k
            = simple_walks_from g rs steps n node k.
Proof.
  induction n as [|n IH]; intros k.
  - reflexivity.
  - cbn [walks_from simple_walks_from]. rewrite extend_unbiased.
    destruct (simple_extend g rs steps node k) as [w|e]; [|reflexivity].
    cbn [bind]. now rewrite IH.
Qed.

Lemma walks_over_unbiased (steps n : nat) (roots : list string) :
  forall k, walks_over g 1 1 rs steps n roots k
            = simple_walks_over g rs steps n roots k.
Proof.
  induction roots as [|node rest IH]; intros k.
  - reflexivity.
  - cbn [walks_over simple_walks_over]. rewrite walks_from_unbiased.
    destruct (simple_walks_from g rs steps n node k) as [ws|e]; [|reflexivity].
    cbn [bind]. now rewrite IH.
Qed.

Lemma run_unbiased (roots : list string) (length n : Z) :
  run g rs roots length n 1 1 = simple_random_walk g rs roots length n.
Proof.
  unfold run, simple_random_walk.
  destruct (n <? 1); [reflexivity|].
  destruct (length <? 1); [reflexivity|].
  change (Qle_bool 1 0) with false. cbv iota.
  change (1 / 1)%Q with 1%Q.
  now rewrite walks_over_unbiased.
Qed.

Lemma last_cons_default {A : Type} (l : list A) (a d : A) :
  last (a :: l) d = last l a.
Proof.
  revert a d; induction l as [|b t IH]; intros a d; [reflexivity|].
  change (last (a :: b :: t) d) with (last (b :: t) d).
  now rewrite (IH b d), (IH b a).
Qed.

Lemma simple_extend_ok (steps : nat) :
  forall current_node k,
  exists l k',
    simple_extend g rs steps current_node k = Ok (l, k') /\
    (List.length l <= steps)%nat /\
    ((List.length l < steps)%nat ->
     neighbor_arrays g (last l current_node) = []).
Proof.
  induction steps as [|steps IH]; intros cur k.
  - exists [], k. repeat split; auto. simpl; lia.
  - cbn [simple_extend]. cbv zeta.
    destruct (neighbor_arrays g cur) as [|x t] eqn:Hn.
    + exists [], k. repeat split; auto. simpl; lia.
    + destruct (nth_error (x :: t) _) as [next|] eqn:Hnth.
      * destruct (IH next (S k)) as (l & k' & E & Hlen & Hstop).
        rewrite E. cbn [bind fst snd].
        exists (next :: l), k'. repeat split.
        -- simpl; lia.
        -- intros H. rewrite last_cons_default. apply Hstop. simpl in H; lia.
      * exfalso. apply nth_error_None in Hnth.
        pose proof (uniform_choice_lt (random rs k) (List.length (x :: t))) as B.
        assert (uniform_choice (random rs k) (List.length (x :: t))
                < List.length (x :: t))%nat; [|lia].
        apply B; [apply Qlt_le_weak, random_range | simpl; lia].
Qed.

Lemma simple_walks_from_ok (steps n : nat) (node : string) :
  forall k,
  exists ws k',
    simple_walks_from g rs steps n node k = Ok (ws, k') /\
    List.length ws = n /\ Forall (walk_ok g (S steps)) ws.
Proof.
  induction n as [|n IH]; intros k.
  - exists [], k. repeat split; auto.
  - cbn [simple_walks_from].
    destruct (simple_extend_ok steps node k) as (l & k1 & E & Hlen & Hstop).
    rewrite E. cbn [bind fst snd].
    destruct (IH k1) as (ws & k2 & E2 & Hn & Hall).
    rewrite E2. cbn [bind fst snd].
    exists ((node :: l) :: ws), k2. repeat split.
    + simpl; lia.
    + constructor; auto. split.
      * simpl; lia.
      * intros H. rewrite last_cons_default. apply Hstop. simpl in H; lia.
Qed.

Lemma simple_walks_over_ok (steps n : nat) (roots : list string) :
  forall k,
  exists ws k',
    simple_walks_over g rs steps n roots k = Ok (ws, k') /\
    List.length ws = (n * List.length roots)%nat /\
    Forall (walk_ok g (S steps)) ws.
Proof.
  induction roots as [|node rest IH]; intros k.
  - exists [], k. repeat split; auto; simpl; lia.
  - cbn [simple_walks_over].
    destruct (simple_walks_from_ok steps n node k) as (ws1 & k1 & E1 & H1 & A1).
    rewrite E1. cbn [bind fst snd].
    destruct (IH k1) as (ws2 & k2 & E2 & H2 & A2).
    rewrite E2. cbn [bind fst snd].
    exists (ws1 ++ ws2), k2. repeat split.
    + rewrite length_app, H1, H2. simpl. lia.
    + apply Forall_app; auto.
Qed.

End Graph.

(** C2.  On a graph of [M] nodes the sampler, run from every node with
    [num_walks = N] and [walk_length = L] (both at least 1, which the
    sampler requires) and the script's [p = q = 1], returns exactly
    [N * M] walks; each has between 1 and [L] nodes, and one with fewer
    than [L] ends at a node without neighbours. *)
Theorem walk_count (g : graph) (rs : rng) (N L : Z) :
  1 <= N -> 1 <= L ->
  exists walks,
    run g rs (nodes g) L N 1 1 = Ok walks /\
    Z.of_nat (List.length walks) = N * Z.of_nat (number_of_nodes g) /\
    forall w, In w walks ->
      1 <= Z.of_nat (List.length w) <= L /\
      (Z.of_nat (List.length w) < L -> neighbor_arrays g (last w "") = []).
Proof.
  intros HN HL. rewrite run_unbiased. unfold simple_random_walk.
  destruct (Z.ltb_spec N 1) as [C|_]; [lia|].
  destruct (Z.ltb_spec L 1) as [C|_]; [lia|].
  destruct (simple_walks_over_ok g rs (Z.to_nat (L - 1)) (Z.to_nat N) (nodes g) O)
    as (ws & k & E & Hlen & Hall).
  rewrite E. cbn [bind fst]. exists ws. repeat split.
  - rewrite Hlen. unfold number_of_nodes, nodes. lia.
  - rewrite Forall_forall in Hall. destruct (Hall w H) as [[B1 B2] _]. lia.
  - rewrite Forall_forall in Hall. destruct (Hall w H) as [[B1 B2] _]. lia.
  - intros Hlt. rewrite Forall_forall in Hall. destruct (Hall w H) as [_ S].
    apply S. lia.
Qed.

Lemma walk_count_witness :
  exists walks,
    run (StellarGraph [("A", "B"); ("B", "C")]) (fun k => N.of_nat k)
      (nodes (StellarGraph [("A", "B"); ("B", "C")])) 4 2 1 1 = Ok walks /\
    Z.of_nat (List.length walks)
    = 2 * Z.of_nat (number_of_nodes (StellarGraph [("A", "B"); ("B", "C")])) /\
    forall w, In w walks ->
      1 <= Z.of_nat (List.length w) <= 4 /\
      (Z.of_nat (List.length w) < 4 ->
       neighbor_arrays (StellarGraph [("A", "B"); ("B", "C")]) (last w "") = []).
Proof.
  apply (walk_count (StellarGraph [("A", "B"); ("B", "C")]) (fun k => N.of_nat k) 2 4); lia.
Defined.



End WalkClaims.

(** ** The command line *)

Module ArgparseFacts.
Import Argparse.
Local Open Scope list_scope.

Lemma lookup_In (s : string) (table : list (string * action)) (a : action) :
  lookup s table = Some a -> In (s, a) table.
Proof.
  induction table as [|[o b] t IH]; simpl; [discriminate|].
  destruct (String.eqb_spec o s) as [->|Hne].
  - intros [= ->]. now left.
  - intros H. right. now apply IH.
Qed.

Lemma partition_eq_spec (s o v : string) :
  partition_eq s = Some (o, v) -> s = (o ++ String "=" v)%string.
Proof.
  revert o v; induction s as [|c t IH]; intros o v; simpl; [discriminate|].
  destruct (Ascii.eqb_spec c "=") as [->|Hne].
  - intros [= <- <-]. reflexivity.
  - destruct (partition_eq t) as [[a b]|]; [|discriminate].
    intros [= <- <-]. simpl. f_equal. now apply IH.
Qed.

Lemma startswith_app (p x : string) : startswith (p ++ x)%string p = true.
Proof.
  induction p as [|c p IH]; simpl; [reflexivity|].
  now rewrite Ascii.eqb_refl, IH.
Qed.

Lemma startswith_refl (p : string) : startswith p p = true.
Proof.
  induction p as [|c p IH]; simpl; [reflexivity|].
  now rewrite Ascii.eqb_refl, IH.
Qed.

(** Go through the declared option strings one by one. *)
Ltac each_option H :=
  simpl in H;
  repeat (destruct H as [H|H];
          [try discriminate H; injection H; intros; subst; try congruence | ]);
  try contradiction.

Lemma spells_exact (o : string) (a : action) (v : string) :
  In (o, a) option_strings ->
  spells a o = true /\ spells a (o ++ String "=" v)%string = true.
Proof.
  intros H. each_option H; split; reflexivity.
Qed.

Lemma startswith_cons (s : string) (c : ascii) (p : string) :
  startswith s (String c p) = true ->
  exists s', s = String c s' /\ startswith s' p = true.
Proof.
  destruct s as [|d s']; simpl; [discriminate|].
  destruct (Ascii.eqb_spec c d) as [->|]; simpl; [|discriminate].
  intros H. eauto.
Qed.

(** A prefix of a long option string that goes beyond the two dashes
    fixes the key. *)
Lemma spells_abbreviation (p : string) (a : action) (s : string) :
  In a (abbreviations p) -> startswith p "--" = true -> p <> "--" ->
  startswith s p = true -> spells a s = true.
Proof.
  intros Ha Hdd Hne Hs.
  unfold abbreviations in Ha. apply in_map_iff in Ha.
  destruct Ha as ([o b] & E & Ho). simpl in E. subst b.
  apply filter_In in Ho. destruct Ho as [Ho Hp]. simpl fst in Hp.
  apply startswith_cons in Hdd. destruct Hdd as (p1 & -> & Hdd).
  apply startswith_cons in Hdd. destruct Hdd as (p2 & -> & _).
  destruct p2 as [|c3 p3]; [contradiction|]. clear Hne.
  apply startswith_cons in Hs. destruct Hs as (s1 & -> & Hs).
  apply startswith_cons in Hs. destruct Hs as (s2 & -> & Hs).
  apply startswith_cons in Hs. destruct Hs as (s3 & -> & _).
  each_option Ho;
    apply startswith_cons in Hp; destruct Hp as (o1 & E1 & Hp);
    apply startswith_cons in Hp; destruct Hp as (o2 & E2 & Hp);
    injection E1 as E1; subst o1;
    try discriminate E2;
    injection E2 as E2; subst o2;
    apply startswith_cons in Hp; destruct Hp as (o3 & E3 & _);
    injection E3 as E3 _; subst c3;
    reflexivity.
Qed.

Lemma startswith_partition (arg o v : string) :
  partition_eq arg = Some (o, v) -> startswith arg "--" = true ->
  startswith o "--" = true.
Proof.
  intros Hp Hs. apply partition_eq_spec in Hp. subst arg.
  destruct o as [|c1 [|c2 o]].
  - discriminate Hs.
  - apply startswith_cons in Hs. destruct Hs as (s1 & E1 & Hs).
    simpl in E1. injection E1 as _ <-. discriminate Hs.
  - apply startswith_cons in Hs. destruct Hs as (s1 & E1 & Hs).
    apply startswith_cons in Hs. destruct Hs as (s2 & E2 & _).
    simpl in E1. injection E1 as Ec Es. subst c1 s1.
    injection E2 as Ec _. subst c2.
    reflexivity.
Qed.

Lemma spells_glued (arg : string) (a : action) :
  lookup (head2 arg) option_strings = Some a -> spells a arg = true.
Proof.
  intros H. apply lookup_In in H.
  assert (E : head2 arg = match arg with
                          | String c1 (String c2 _) => String c1 (String c2 "")
                          | _ => arg
                          end)
    by (destruct arg as [|c1 [|c2 [|c3 r]]]; reflexivity).
  rewrite E in H. clear E.
  destruct arg as [|c1 [|c2 r]]; each_option H; reflexivity.
Qed.

(** An argument that [classify] takes for an option of [a] starts like
    one of the option strings of [a]. *)
Lemma classify_spells (arg : string) (a : action) (short : bool)
    (explicit : option string) :
  classify arg = Flag a short explicit -> spells a arg = true.
Proof.
  unfold classify.
  destruct (startswith arg "-"); simpl negb; cbv iota; [|discriminate].
  destruct (lookup arg option_strings) as [a0|] eqn:Hl.
  - intros [= <- _ _]. apply lookup_In in Hl.
    now apply (spells_exact arg a0 "").
  - destruct (String.length arg =? 1)%nat; [discriminate|].
    destruct (split_exact arg) as [t|] eqn:Hs.
    + intros ->. unfold split_exact in Hs.
      destruct (partition_eq arg) as [[o v]|] eqn:Hp; [|discriminate].
      destruct (lookup o option_strings) as [a0|] eqn:Ho; [|discriminate].
      injection Hs as <- _ _.
      apply partition_eq_spec in Hp. subst arg.
      apply lookup_In in Ho. now apply spells_exact.
    + destruct (option_tuples arg) as [|t [|t' rest]] eqn:Ht.
      * destruct (negative_number arg); [discriminate|].
        destruct (has_space arg); discriminate.
      * intros ->. unfold option_tuples in Ht.
        destruct (startswith arg "--") eqn:Hdd.
        -- destruct (partition_eq arg) as [[o v]|] eqn:Hp.
           ++ assert (Ha : abbreviations o = [a]).
              { destruct (abbreviations o) as [|x [|y l]]; simpl in Ht;
                  try discriminate. now injection Ht as ->. }
              apply (spells_abbreviation o).
              ** rewrite Ha. now left.
              ** now apply (startswith_partition arg o v).
              ** intros ->. discriminate Ha.
              ** apply partition_eq_spec in Hp. subst arg. apply startswith_app.
           ++ assert (Ha : abbreviations arg = [a]).
              { destruct (abbreviations arg) as [|x [|y l]]; simpl in Ht;
                  try discriminate. now injection Ht as ->. }
              apply (spells_abbreviation arg); auto.
              ** rewrite Ha. now left.
              ** intros ->. discriminate Ha.
              ** apply startswith_refl.
        -- destruct (lookup (head2 arg) option_strings) as [a0|] eqn:Hh;
             [|discriminate].
           injection Ht as <- _ _. now apply spells_glued.
      * discriminate.
Qed.

Lemma store_slot (d d' : dest) (v : string) (ns ns' : Namespace) :
  d <> d' -> store d' v ns = Some ns' -> slot d ns' = slot d ns.
Proof.
  intros Hne H.
  destruct d'; simpl in H;
    try (destruct (int v); simpl in H; [|discriminate]);
    injection H as <-; destruct d; try reflexivity; contradiction.
Qed.

Lemma spells_refl_false (d : dest) (arg : string) (a : action) :
  spells (Store d) arg = false -> spells a arg = true -> a <> Store d.
Proof. intros H1 H2 ->. congruence. Qed.

(** Arguments that do not start like an option of [d] leave its
    attribute alone. *)
Lemma consume_slot (d : dest) (n : nat) :
  forall argv ns extras ns' extras',
    (List.length argv <= n)%nat ->
    (forall arg, In arg argv -> spells (Store d) arg = false) ->
    consume argv ns extras = Scanned ns' extras' ->
    slot d ns' = slot d ns.
Proof.
  induction n as [|n IH]; intros argv ns extras ns' extras' Hlen Hno H.
  - destruct argv; [|simpl in Hlen; lia].
    simpl in H. now injection H as <- _.
  - destruct argv as [|arg rest]; [simpl in H; now injection H as <- _|].
    simpl in Hlen. cbn [consume] in H.
    destruct (String.eqb arg "--"); [now injection H as <- _|].
    assert (Hrest : forall x, In x rest -> spells (Store d) x = false)
      by (intros; apply Hno; simpl; auto).
    destruct (classify arg) as [|a short explicit| |] eqn:Hc.
    + eapply IH; [| |exact H]; auto; lia.
    + apply classify_spells in Hc.
      assert (Ha : a <> Store d)
        by (apply (spells_refl_false d arg); auto; apply Hno; simpl; auto).
      destruct a as [d'|].
      * assert (Hd : d <> d') by congruence.
        destruct explicit as [v|].
        -- destruct (store d' v ns) as [ns1|] eqn:Hst; [|discriminate].
           rewrite <- (store_slot d d' v ns ns1 Hd Hst).
           eapply IH; [| |exact H]; auto; lia.
        -- destruct rest as [|v rest']; [discriminate|].
           destruct (is_value v); [|discriminate].
           destruct (store d' v ns) as [ns1|] eqn:Hst; [|discriminate].
           rewrite <- (store_slot d d' v ns ns1 Hd Hst).
           eapply IH; [| |exact H].
           ++ simpl in Hlen; lia.
           ++ intros; apply Hrest; simpl; auto.
      * destruct short, explicit; discriminate.
    + discriminate.
    + eapply IH; [| |exact H]; auto; lia.
Qed.

(** Without an argument that starts like [-h] or [--h] the scan never
    stops with status 0. *)
Lemma consume_stopped (n : nat) :
  forall argv ns extras status,
    (List.length argv <= n)%nat ->
    (forall arg, In arg argv -> spells Help arg = false) ->
    consume argv ns extras = Stopped status ->
    status = 2.
Proof.
  induction n as [|n IH]; intros argv ns extras status Hlen Hno H.
  - destruct argv; [|simpl in Hlen; lia]. discriminate.
  - destruct argv as [|arg rest]; [discriminate|].
    simpl in Hlen. cbn [consume] in H.
    destruct (String.eqb arg "--"); [discriminate|].
    assert (Hrest : forall x, In x rest -> spells Help x = false)
      by (intros; apply Hno; simpl; auto).
    destruct (classify arg) as [|a short explicit| |] eqn:Hc.
    + eapply IH; [| |exact H]; auto; lia.
    + apply classify_spells in Hc.
      destruct a as [d'|].
      * destruct explicit as [v|].
        -- destruct (store d' v ns) as [ns1|]; [|now injection H].
           eapply IH; [| |exact H]; auto; lia.
        -- destruct rest as [|v rest']; [now injection H|].
           destruct (is_value v); [|now injection H].
           destruct (store d' v ns) as [ns1|]; [|now injection H].
           eapply IH; [| |exact H].
           ++ simpl in Hlen; lia.
           ++ intros; apply Hrest; simpl; auto.
      * rewrite (Hno arg) in Hc; [discriminate | simpl; auto].
    + now injection H.
    + eapply IH; [| |exact H]; auto; lia.
Qed.

Lemma mentions_false (a : action) (argv : list string) :
  mentions a argv = false -> forall arg, In arg argv -> spells a arg = false.
Proof.
  unfold mentions. intros H arg Hin.
  destruct (spells a arg) eqn:E; auto.
  assert (existsb (spells a) argv = true)
    by (apply existsb_exists; eauto).
  congruence.
Qed.

Lemma parse_without_required (argv : list string) :
  mentions Help argv = false ->
  mentions (Store Input) argv = false \/ mentions (Store Output) argv = false ->
  parse_args argv = SystemExit 2.
Proof.
  intros Hh Hreq. unfold parse_args.
  destruct (ambiguous_somewhere argv); [reflexivity|].
  destruct (consume argv defaults []) as [ns extras|status] eqn:Hc.
  - destruct Hreq as [Hi|Ho].
    + pose proof (consume_slot Input _ _ _ _ _ _ (le_n _)
                    (mentions_false _ _ Hi) Hc) as E.
      simpl in E. injection E as ->. reflexivity.
    + pose proof (consume_slot Output _ _ _ _ _ _ (le_n _)
                    (mentions_false _ _ Ho) Hc) as E.
      simpl in E. injection E as ->.
      destruct (ns_input ns); reflexivity.
  - f_equal. eapply consume_stopped; [apply le_n| |exact Hc].
    now apply mentions_false.
Qed.

Lemma parse_default_dimensions (argv : list string) (args : Args) :
  parse_args argv = Parsed args ->
  mentions (Store Dimensions) argv = false ->
  dimensions args = 128.
Proof.
  unfold parse_args. intros H Hd.
  destruct (ambiguous_somewhere argv); [discriminate|].
  destruct (consume argv defaults []) as [ns extras|status] eqn:Hc; [|discriminate].
  pose proof (consume_slot Dimensions _ _ _ _ _ _ (le_n _)
                (mentions_false _ _ Hd) Hc) as E.
  simpl in E. injection E as E.
  destruct (ns_input ns), (ns_output ns), extras; try discriminate.
  injection H as <-. exact E.
Qed.

End ArgparseFacts.

(** ** The script as a whole *)

Module ScriptClaims.
Import Argparse Script ArgparseFacts PandasFacts.
Local Open Scope list_scope.

Lemma last_print (out : list string) (line d : string) :
  last (print out line) d = line.
Proof. unfold print. apply last_last. Qed.

Section Libraries.
Context {scalar : Type}.
Variable L : Libraries scalar.

(** C3.  A failure of loading, of graph construction or of walk
    generation is caught: the run ends with [sys.exit(1)], the last
    line printed names the stage and carries the text of the
    exception, nothing is written and there is no traceback.  A path
    that does not exist is such a loading failure.  When every stage
    returns, the status is 0. *)
Theorem caught_failures_exit_1 (argv : list string) (args : Args) :
  parse_args argv = Parsed args ->
  (forall e,
      read_csv L (input args) = Error e ->
      ended (main L argv) = Exited 1 /\
      last (printed (main L argv)) "" = ("Error loading data: " ++ exn_text e)%string /\
      written (main L argv) = []) /\
  (forall version fs rs trainer writer,
      L = installed version fs rs trainer writer ->
      fs (input args) = None ->
      ended (main L argv) = Exited 1 /\
      last (printed (main L argv)) ""
      = ("Error loading data: [Errno 2] No such file or directory: '"
           ++ input args ++ "'")%string) /\
  (forall rows e,
      read_csv L (input args) = Ok rows ->
      StellarGraph L (clean rows) = Error e ->
      ended (main L argv) = Exited 1 /\
      last (printed (main L argv)) "" = ("Error creating graph: " ++ exn_text e)%string /\
      written (main L argv) = []) /\
  (forall rows graph e,
      read_csv L (input args) = Ok rows ->
      StellarGraph L (clean rows) = Ok graph ->
      BiasedRandomWalk_run L graph (Stellar.nodes graph)
        (walk_length args) (num_walks args) 1 1 = Error e ->
      ended (main L argv) = Exited 1 /\
      last (printed (main L argv)) "" = ("Error generating walks: " ++ exn_text e)%string /\
      written (main L argv) = []) /\
  (forall rows graph walks wv embeddings,
      read_csv L (input args) = Ok rows ->
      StellarGraph L (clean rows) = Ok graph ->
      BiasedRandomWalk_run L graph (Stellar.nodes graph)
        (walk_length args) (num_walks args) 1 1 = Ok walks ->
      Word2Vec L (map (map (fun node => str (VStr node))) walks)
        (dimensions args) (window_size args) 1 1 4 (epochs args) = Ok wv ->
      extract wv (Stellar.nodes graph) [] = Ok embeddings ->
      to_csv L (set_index_name (from_dict embeddings) "gene_id") (output args) = Ok tt ->
      ended (main L argv) = Exited 0 /\ exit_status (main L argv) = 0).
Proof.
  intros Hparse. unfold exit_status, main. rewrite Hparse.
  split; [|split; [|split; [|split]]].
  - intros e H. rewrite H. cbn [ended printed written].
    rewrite last_print. auto.
  - intros version fs rs trainer writer -> H.
    cbn [read_csv installed]. unfold Csv.read_csv. rewrite H.
    cbn [ended printed written exn_text].
    rewrite last_print. auto.
  - intros rows e H1 H2. rewrite H1, H2. cbn [ended printed written].
    rewrite last_print. auto.
  - intros rows graph e H1 H2 H3. rewrite H1, H2, H3.
    cbn [ended printed written]. rewrite last_print. auto.
  - intros rows graph walks wv embeddings H1 H2 H3 H4 H5 H6.
    rewrite H1, H2, H3, H4, H5, H6. cbn [ended]. auto.
Qed.

(** C4.  Training, the look-up of the vectors and the writing of the
    table are outside every [try]: an exception raised there ends the
    run with that exception as a traceback, a status that is not 0 and
    no file written; a graph node the model has no vector for is such
    an exception, a [KeyError]. *)
Theorem later_failures_uncaught (argv : list string) (args : Args)
    (rows : frame) (graph : Stellar.graph) (walks : list (list string)) :
  parse_args argv = Parsed args ->
  read_csv L (input args) = Ok rows ->
  StellarGraph L (clean rows) = Ok graph ->
  BiasedRandomWalk_run L graph (Stellar.nodes graph)
    (walk_length args) (num_walks args) 1 1 = Ok walks ->
  (forall e,
      Word2Vec L (map (map (fun node => str (VStr node))) walks)
        (dimensions args) (window_size args) 1 1 4 (epochs args) = Error e ->
      ended (main L argv) = Traceback e /\
      exit_status (main L argv) <> 0 /\ written (main L argv) = []) /\
  (forall wv e,
      Word2Vec L (map (map (fun node => str (VStr node))) walks)
        (dimensions args) (window_size args) 1 1 4 (epochs args) = Ok wv ->
      extract wv (Stellar.nodes graph) [] = Error e ->
      ended (main L argv) = Traceback e /\
      exit_status (main L argv) <> 0 /\ written (main L argv) = []) /\
  (forall wv node,
      Word2Vec L (map (map (fun node => str (VStr node))) walks)
        (dimensions args) (window_size args) 1 1 4 (epochs args) = Ok wv ->
      In node (Stellar.nodes graph) ->
      get wv node = None ->
      exists e, ended (main L argv) = Traceback e /\ exn_class e = "KeyError" /\
                exit_status (main L argv) <> 0 /\ written (main L argv) = []) /\
  (forall wv embeddings e,
      Word2Vec L (map (map (fun node => str (VStr node))) walks)
        (dimensions args) (window_size args) 1 1 4 (epochs args) = Ok wv ->
      extract wv (Stellar.nodes graph) [] = Ok embeddings ->
      to_csv L (set_index_name (from_dict embeddings) "gene_id") (output args) = Error e ->
      ended (main L argv) = Traceback e /\
      exit_status (main L argv) <> 0 /\ written (main L argv) = []).
Proof.
  intros Hparse H1 H2 H3. unfold exit_status, main.
  rewrite Hparse, H1, H2, H3.
  split; [|split; [|split]].
  - intros e H4. rewrite H4. cbn [ended written]. repeat split; auto. discriminate.
  - intros wv e H4 H5. rewrite H4, H5. cbn [ended written].
    repeat split; auto. discriminate.
  - intros wv node H4 Hin Hget. rewrite H4.
    assert (G : forall ids acc, In node ids ->
                  exists e, extract wv ids acc = Error e /\ exn_class e = "KeyError").
    { induction ids as [|x t IH]; intros acc Hids; [contradiction|].
      destruct Hids as [->|Hx]; cbn [extract str].
      - unfold getitem. rewrite Hget. cbn [bind]. eexists; split; reflexivity.
      - unfold getitem. destruct (get wv x); cbn [bind].
        + now apply IH.
        + eexists; split; reflexivity. }
    destruct (G (Stellar.nodes graph) [] Hin) as (e & -> & Hk).
    exists e. cbn [ended written]. repeat split; auto. discriminate.
  - intros wv embeddings e H4 H5 H6. rewrite H4, H5, H6. cbn [ended written].
    repeat split; auto. discriminate.
Qed.

(** C9, as the code has it.  A command line on which no argument
    starts like [-h]/[--h], and on which no argument starts like
    [-i]/[--i] or none like [-o]/[--o], ends in the parser with status
    2: nothing is printed by [main], no stage runs, nothing is
    written. *)
Theorem missing_required_exits_2 (argv : list string) :
  mentions Help argv = false ->
  mentions (Store Input) argv = false \/ mentions (Store Output) argv = false ->
  main L argv = {| ended := Exited 2; printed := []; written := [] |} /\
  exit_status (main L argv) = 2.
Proof.
  intros Hh Hreq. unfold exit_status, main.
  rewrite (parse_without_required argv Hh Hreq). auto.
Qed.

End Libraries.

Lemma caught_failures_exit_1_witness :
  ended (main Fixture.libraries ["-i"; "missing.tsv"; "-o"; "out.csv"]) = Exited 1 /\
  last (printed (main Fixture.libraries ["-i"; "missing.tsv"; "-o"; "out.csv"])) ""
  = "Error loading data: [Errno 2] No such file or directory: 'missing.tsv'".
Proof.
  destruct (caught_failures_exit_1 Fixture.libraries
              ["-i"; "missing.tsv"; "-o"; "out.csv"]
              {| input := "missing.tsv"; output := "out.csv"; dimensions := 128;
                 walk_length := 50; num_walks := 10; window_size := 10; epochs := 20 |}
              eq_refl) as (_ & H & _).
  apply (H "4.3.2" Fixture.fs Fixture.rs Fixture.zeros Fixture.writes); reflexivity.
Defined.

Lemma later_failures_uncaught_witness :
  exists e,
    ended (main (installed "4.3.2" Fixture.fs Fixture.rs Fixture.forgetful Fixture.writes)
             Fixture.argv) = Traceback e /\
    exn_class e = "KeyError" /\
    exit_status (main (installed "4.3.2" Fixture.fs Fixture.rs Fixture.forgetful
                         Fixture.writes) Fixture.argv) <> 0 /\
    written (main (installed "4.3.2" Fixture.fs Fixture.rs Fixture.forgetful
                     Fixture.writes) Fixture.argv) = [].
Proof.
  destruct (later_failures_uncaught
              (installed "4.3.2" Fixture.fs Fixture.rs Fixture.forgetful Fixture.writes)
              Fixture.argv
              {| input := "edges.tsv"; output := "out.csv"; dimensions := 4;
                 walk_length := 5; num_walks := 2; window_size := 10; epochs := 20 |}
              Fixture.triangle
              (Stellar.StellarGraph (clean Fixture.triangle))
              [["A"; "B"; "C"; "B"; "C"]; ["A"; "B"; "C"; "B"; "C"];
               ["B"; "C"; "B"; "C"; "B"]; ["B"; "C"; "B"; "C"; "B"];
               ["C"; "B"; "C"; "B"; "C"]; ["C"; "B"; "C"; "B"; "C"]]
              eq_refl eq_refl eq_refl) as (_ & _ & H & _).
  - vm_compute. reflexivity.
  - apply (H [] "A").
    + reflexivity.
    + vm_compute. auto.
    + reflexivity.
Defined.

Lemma missing_required_exits_2_witness :
  exit_status (main Fixture.libraries ["--output"; "out.csv"; "-d"; "16"]) = 2.
Proof.
  apply (missing_required_exits_2 Fixture.libraries ["--output"; "out.csv"; "-d"; "16"]).
  - reflexivity.
  - left. reflexivity.
Defined.

(** C9 as stated fails on a request for help: no [--input] and no
    [--output] on the command line, and the parser ends the run with
    status 0. *)
Lemma help_exits_0 :
  mentions (Store Input) ["--help"] = false /\
  mentions (Store Output) ["--help"] = false /\
  main Fixture.libraries ["--help"]
  = {| ended := Exited 0; printed := []; written := [] |} /\
  exit_status (main Fixture.libraries ["--help"]) <> 2.
Proof.
  repeat split. vm_compute. discriminate.
Qed.

End ScriptClaims.

(** ** The table that is written *)

Module TableClaims.
Import Argparse Script ArgparseFacts PandasFacts.
Local Open Scope list_scope.

Section Dict.
Context {V : Type}.

Lemma get_In (d : list (string * V)) (key : string) (v : V) :
  get d key = Some v -> In (key, v) d.
Proof.
  induction d as [|[k w] t IH]; simpl; [discriminate|].
  destruct (String.eqb_spec k key) as [->|Hne].
  - intros [= ->]. now left.
  - intros H. right. now apply IH.
Qed.

Lemma setitem_keys (d : list (string * V)) (key : string) (v : V) :
  ~ In key (map fst d) -> map fst (setitem d key v) = map fst d ++ [key].
Proof.
  induction d as [|[k w] t IH]; simpl; intros H; [reflexivity|].
  destruct (String.eqb_spec k key) as [->|Hne].
  - exfalso. apply H. now left.
  - simpl. f_equal. apply IH. intros C. apply H. now right.
Qed.

Lemma setitem_In (d : list (string * V)) (key : string) (v : V) (kv : string * V) :
  In kv (setitem d key v) -> kv = (key, v) \/ In kv d.
Proof.
  induction d as [|[k w] t IH]; simpl.
  - intros [<-|[]]. now left.
  - destruct (String.eqb_spec k key) as [->|Hne]; simpl.
    + intros [<-|H]; auto.
    + intros [<-|H]; auto. destruct (IH H); auto.
Qed.
End Dict.

Section Extract.
Context {scalar : Type}.
Variable wv : KeyedVectors scalar.

(** The loop of lines 85-87 fills the dict with vectors of the model. *)
Lemma extract_vectors (ids : list string) :
  forall acc embeddings,
    extract wv ids acc = Ok embeddings ->
    forall kv, In kv embeddings -> In kv acc \/ In kv wv.
Proof.
  induction ids as [|x t IH]; intros acc emb H kv Hkv.
  - simpl in H. injection H as <-. auto.
  - cbn [extract str] in H. unfold getitem in H.
    destruct (get wv x) as [v|] eqn:Hg; [|discriminate].
    cbn [bind] in H.
    destruct (IH _ _ H kv Hkv) as [Hs|]; auto.
    apply setitem_In in Hs. destruct Hs as [->|]; auto.
    right. now apply get_In.
Qed.

(** Over distinct nodes it leaves one entry per node, in their order. *)
Lemma extract_keys (ids : list string) :
  forall acc embeddings,
    extract wv ids acc = Ok embeddings ->
    NoDup ids -> (forall x, In x ids -> ~ In x (map fst acc)) ->
    map fst embeddings = map fst acc ++ ids.
Proof.
  induction ids as [|x t IH]; intros acc emb H Hnd Hfresh.
  - simpl in H. injection H as <-. now rewrite app_nil_r.
  - cbn [extract str] in H. unfold getitem in H.
    destruct (get wv x) as [v|] eqn:Hg; [|discriminate].
    cbn [bind] in H. inversion Hnd as [|y l Hx Ht]; subst.
    apply IH in H; auto.
    + rewrite H, setitem_keys by (apply Hfresh; now left).
      now rewrite <- app_assoc.
    + intros y Hy. rewrite setitem_keys by (apply Hfresh; now left).
      rewrite in_app_iff. intros [C|[->|[]]].
      * apply (Hfresh y); [now right | exact C].
      * contradiction.
Qed.

Lemma width_uniform (d : list (string * vector scalar)) (n : nat) :
  (forall kv, In kv d -> List.length (snd kv) = n) -> d <> [] ->
  fold_right Nat.max O (map (fun kv => List.length (snd kv)) d) = n.
Proof.
  unfold vector in *.
  induction d as [|kv t IH]; intros H Hne; [contradiction|].
  cbn [map fold_right]. rewrite (H kv) by now left.
  destruct t as [|kv' t'].
  - cbn [map fold_right]. lia.
  - rewrite IH; [lia| |discriminate].
    intros; apply H; now right.
Qed.
End Extract.

Section Libraries.
Context {scalar : Type}.
Variable L : Libraries scalar.

(** What a run that ends with status 0 after parsing went through. *)
Lemma main_success (argv : list string) (args : Args) :
  parse_args argv = Parsed args ->
  ended (main L argv) = Exited 0 ->
  exists rows graph walks wv embeddings,
    read_csv L (input args) = Ok rows /\
    StellarGraph L (clean rows) = Ok graph /\
    BiasedRandomWalk_run L graph (Stellar.nodes graph)
      (walk_length args) (num_walks args) 1 1 = Ok walks /\
    Word2Vec L (map (map (fun node => str (VStr node))) walks)
      (dimensions args) (window_size args) 1 1 4 (epochs args) = Ok wv /\
    extract wv (Stellar.nodes graph) [] = Ok embeddings /\
    written (main L argv)
    = [(output args, set_index_name (from_dict embeddings) "gene_id")].
Proof.
  intros Hparse. unfold main. rewrite Hparse.
  destruct (read_csv L (input args)) as [rows|e] eqn:H1; [|discriminate].
  destruct (StellarGraph L (clean rows)) as [graph|e] eqn:H2; [|discriminate].
  destruct (BiasedRandomWalk_run L graph _ _ _ _ _) as [walks|e] eqn:H3;
    [|discriminate].
  destruct (Word2Vec L _ _ _ _ _ _ _) as [wv|e] eqn:H4; [|discriminate].
  destruct (extract wv _ _) as [embeddings|e] eqn:H5; [|discriminate].
  destruct (to_csv L _ _) as [u|e] eqn:H6; [|discriminate].
  intros _. exists rows, graph, walks, wv, embeddings.
  repeat split; auto.
Qed.

(** C5.  When gensim keeps its word on the vector size, a run that
    ends with status 0 has written a table whose every row holds
    exactly [dimensions] numbers and no missing cell, with as many
    columns (when there is a row at all); [dimensions] is the value
    parsed from the command line, 128 when no argument starts like
    [-d] or [--d]. *)
Theorem vectors_have_dimensions (argv : list string) (args : Args) :
  respects_vector_size L ->
  parse_args argv = Parsed args ->
  ended (main L argv) = Exited 0 ->
  (mentions (Store Dimensions) argv = false -> dimensions args = 128) /\
  exists df,
    written (main L argv) = [(output args, df)] /\
    (index df <> [] -> Z.of_nat (List.length (columns df)) = dimensions args) /\
    (forall r, In r (data df) ->
               Z.of_nat (List.length r) = dimensions args /\
               forall c, In c r -> c <> None).
Proof.
  intros Hsize Hparse Hend. split.
  - now apply parse_default_dimensions.
  - destruct (main_success argv args Hparse Hend)
      as (rows & graph & walks & wv & emb & _ & _ & _ & H4 & H5 & Hw).
    exists (set_index_name (from_dict emb) "gene_id"). split; [exact Hw|].
    assert (Hlen : forall kv, In kv emb ->
                     List.length (snd kv) = Z.to_nat (dimensions args)).
    { intros [k v] Hkv.
      destruct (extract_vectors wv _ _ _ H5 _ Hkv) as [[]|Hin].
      pose proof (Hsize _ _ _ _ _ _ _ _ H4 _ _ Hin). simpl. lia. }
    assert (Hpos : emb <> [] -> 0 <= dimensions args).
    { destruct emb as [|[k v] t]; [contradiction|]. intros _.
      destruct (extract_vectors wv _ _ _ H5 (k, v)) as [[]|Hin]; [now left|].
      pose proof (Hsize _ _ _ _ _ _ _ _ H4 _ _ Hin). lia. }
    cbn [index columns data set_index_name from_dict]. split.
    + intros Hne. assert (emb <> []) by (intros ->; now apply Hne).
      rewrite length_seq, (width_uniform emb _ Hlen) by auto.
      specialize (Hpos H). lia.
    + intros r Hr. apply in_map_iff in Hr. destruct Hr as (kv & <- & Hkv).
      assert (Hne : emb <> []) by (intros ->; contradiction).
      rewrite (width_uniform emb _ Hlen Hne). unfold pad.
      rewrite (Hlen kv Hkv), Nat.sub_diag. simpl repeat. rewrite app_nil_r.
      split.
      * rewrite length_map, (Hlen kv Hkv). specialize (Hpos Hne). lia.
      * intros c Hc. apply in_map_iff in Hc. destruct Hc as (x & <- & _).
        discriminate.
Qed.

End Libraries.

Lemma nodes_of_edges (edges : list edge) (id : string) :
  In id (Stellar.nodes (Stellar.StellarGraph edges)) <->
  exists e, In e edges /\ (id = fst e \/ id = snd e).
Proof.
  unfold Stellar.nodes, Stellar.StellarGraph. cbn [Stellar.node_ids].
  rewrite keep_first_In, in_app_iff, !in_map_iff. split.
  - intros [[(e & <- & He)|(e & <- & He)] _]; eauto.
  - intros (e & He & [->| ->]); split; eauto.
Qed.

Lemma zeros_respects_vector_size (fs : Csv.filesystem) (rs : Walk.rng)
    (version : string) (writer : DataFrame Z -> string -> result unit) :
  respects_vector_size (installed version fs rs Fixture.zeros writer).
Proof.
  unfold respects_vector_size. cbn [Word2Vec installed].
  intros sentences vector_size window min_count sg workers epochs wv H token v Hin.
  unfold Fixture.zeros in H.
  destruct (List.concat sentences) as [|s l]; [discriminate|].
  remember (keep_first string_dec [] (s :: l)) as tokens eqn:Etokens.
  clear Etokens.
  destruct (Z.ltb_spec vector_size 0); [discriminate|].
  injection H as <-. apply in_map_iff in Hin.
  destruct Hin as (t & [= _ <-] & _).
  rewrite repeat_length. lia.
Qed.

Lemma vectors_have_dimensions_witness :
  exists df,
    written (main Fixture.libraries Fixture.argv) = [("out.csv", df)] /\
    (index df <> [] -> Z.of_nat (List.length (columns df)) = 4) /\
    (forall r, In r (data df) ->
               Z.of_nat (List.length r) = 4 /\ forall c, In c r -> c <> None).
Proof.
  apply (vectors_have_dimensions Fixture.libraries Fixture.argv
           {| input := "edges.tsv"; output := "out.csv"; dimensions := 4;
              walk_length := 5; num_walks := 2; window_size := 10; epochs := 20 |}).
  - apply zeros_respects_vector_size.
  - reflexivity.
  - vm_compute. reflexivity.
Defined.

(** C1.  When the edge file parses and the run ends with status 0, the
    table written to the output path is indexed by [gene_id], has one
    row per index entry, lists no identifier twice, and its index is
    exactly the set of identifiers that occur as source or target of an
    edge kept by the loader. *)
Theorem table_rows_are_the_nodes {scalar : Type} (version : string)
    (fs : Csv.filesystem) (rs : Walk.rng)
    (trainer : list (list string) -> Z -> Z -> Z -> Z -> Z -> Z
               -> result (KeyedVectors scalar))
    (writer : DataFrame scalar -> string -> result unit)
    (argv : list string) (args : Args) (rows : frame) :
  parse_args argv = Parsed args ->
  fs (input args) = Some (Csv.Table rows) ->
  ended (main (installed version fs rs trainer writer) argv) = Exited 0 ->
  exists df,
    written (main (installed version fs rs trainer writer) argv) = [(output args, df)] /\
    index_name df = Some "gene_id" /\
    NoDup (index df) /\
    List.length (data df) = List.length (index df) /\
    (forall id, In id (index df) <->
                exists e, In e (clean rows) /\ (id = fst e \/ id = snd e)).
Proof.
  intros Hparse Hfs Hend.
  destruct (main_success _ argv args Hparse Hend)
    as (rows' & graph & walks & wv & emb & H1 & H2 & _ & _ & H5 & Hw).
  cbn [read_csv installed] in H1. unfold Csv.read_csv in H1.
  rewrite Hfs in H1. injection H1 as <-.
  cbn [StellarGraph installed] in H2. injection H2 as <-.
  exists (set_index_name (from_dict emb) "gene_id").
  assert (Hk : map fst emb = Stellar.nodes (Stellar.StellarGraph (clean rows))).
  { apply (extract_keys wv _ [] emb H5).
    - apply keep_first_NoDup.
    - intros x _ []. }
  cbn [index_name index data set_index_name from_dict].
  split; [exact Hw|]. split; [reflexivity|]. split; [|split].
  - rewrite Hk. apply keep_first_NoDup.
  - now rewrite !length_map.
  - intros id. rewrite Hk. apply nodes_of_edges.
Qed.

Lemma table_rows_are_the_nodes_witness :
  exists df,
    written (main Fixture.libraries Fixture.argv) = [("out.csv", df)] /\
    index_name df = Some "gene_id" /\
    NoDup (index df) /\
    List.length (data df) = List.length (index df) /\
    (forall id, In id (index df) <->
                exists e, In e (clean Fixture.triangle) /\ (id = fst e \/ id = snd e)).
Proof.
  apply (table_rows_are_the_nodes "4.3.2" Fixture.fs Fixture.rs Fixture.zeros
           Fixture.writes Fixture.argv
           {| input := "edges.tsv"; output := "out.csv"; dimensions := 4;
              walk_length := 5; num_walks := 2; window_size := 10; epochs := 20 |}
           Fixture.triangle).
  - reflexivity.
  - reflexivity.
  - vm_compute. reflexivity.
Defined.

(** The scenario of the specification: three edges over [A], [B], [C]
    give a table with the rows [A], [B], [C]. *)
Example triangle_table :
  map (fun w => index (snd w)) (written (main Fixture.libraries Fixture.argv))
  = [["A"; "B"; "C"]].
Proof. vm_compute. reflexivity. Qed.

End TableClaims.

(** ** More on the loader and the graph *)

Module LoaderMore.
Import Pandas PandasFacts.
Local Open Scope list_scope.

Section KeepFirstFilter.
Context {A : Type} (eq_dec : forall a b : A, {a = b} + {a <> b}).
Variable keep : A -> bool.

Lemma keep_first_ext (l : list A) :
  forall s1 s2,
    (forall z, In z l -> (In z s1 <-> In z s2)) ->
    keep_first eq_dec s1 l = keep_first eq_dec s2 l.
Proof.
  induction l as [|y t IH]; intros s1 s2 H; [reflexivity|].
  cbn [keep_first].
  destruct (in_dec eq_dec y s1) as [H1|H1];
    destruct (in_dec eq_dec y s2) as [H2|H2].
  - apply IH. intros z Hz. apply H. now right.
  - exfalso. apply H2. apply (H y); [now left | exact H1].
  - exfalso. apply H1. apply (H y); [now left | exact H2].
  - f_equal. apply IH. intros z Hz. simpl.
    specialize (H z (or_intror Hz)). tauto.
Qed.

Lemma keep_first_seen_absent (l seen : list A) (x : A) :
  ~ In x l -> keep_first eq_dec (x :: seen) l = keep_first eq_dec seen l.
Proof.
  intros Hx. apply keep_first_ext. intros z Hz. simpl. split; auto.
  intros [->|H]; [contradiction | exact H].
Qed.

Lemma keep_first_filter (l seen : list A) :
  keep_first eq_dec seen (filter keep l) = filter keep (keep_first eq_dec seen l).
Proof.
  revert seen; induction l as [|x t IH]; intros seen; [reflexivity|].
  cbn [filter keep_first].
  destruct (keep x) eqn:Hk; cbn [keep_first];
    destruct (in_dec eq_dec x seen) as [Hx|Hx]; auto.
  - cbn [filter]. rewrite Hk. f_equal. apply IH.
  - cbn [filter]. rewrite Hk. rewrite <- IH.
    symmetry. apply keep_first_seen_absent.
    rewrite filter_In. intros [_ C]. congruence.
Qed.
End KeepFirstFilter.

(** X1.  The two clean-up steps of line 34 can be taken in either order, and
    taking either of them twice changes nothing. *)
Theorem dropna_drop_duplicates_commute (f : frame) :
  drop_duplicates (dropna f) = dropna (drop_duplicates f) /\
  dropna (dropna f) = dropna f /\
  drop_duplicates (drop_duplicates f) = drop_duplicates f.
Proof.
  split; [|split].
  - unfold drop_duplicates, dropna. apply keep_first_filter.
  - unfold dropna. induction f as [|r t IH]; [reflexivity|].
    cbn [filter]. destruct (notna r) eqn:E; cbn [filter]; rewrite ?E;
      first [exact IH | f_equal; exact IH].
  - apply keep_first_idempotent.
Qed.

(** X2.  The nodes of the graph are the identifiers of the rows that have both
    cells: a value that only occurs beside a missing cell is no node. *)
Theorem nodes_from_complete_rows (f : frame) (id : string) :
  In id (Stellar.nodes (Stellar.StellarGraph (clean f))) <->
  exists a b, In (Some a, Some b) f /\ (id = str a \/ id = str b).
Proof.
  unfold Stellar.nodes, Stellar.StellarGraph. cbn [Stellar.node_ids].
  rewrite keep_first_In, in_app_iff, !in_map_iff. split.
  - intros [H _].
    assert (G : exists e, In e (clean f) /\ (id = fst e \/ id = snd e))
      by (destruct H as [(e & <- & He)|(e & <- & He)]; eauto).
    destruct G as (e & He & Hid).
    unfold clean, columns_astype_str in He. apply in_map_iff in He.
    destruct He as (r & <- & Hr). apply kept_In in Hr.
    destruct Hr as (Hr & a & b & ->). exists a, b. split; auto.
  - intros (a & b & Hab & Hid). split; [|intros []].
    pose proof (clean_In f a b Hab) as He.
    destruct Hid as [->| ->]; [left | right];
      exists (str a, str b); split; auto.
Qed.

Lemma neighbours_sym (g : Stellar.graph) (a b : string) :
  In b (Stellar.neighbor_arrays g a) <-> In a (Stellar.neighbor_arrays g b).
Proof.
  assert (G : forall x y,
             In y (Stellar.neighbor_arrays g x) <->
             In (x, y) (Stellar.edge_list g) \/
             (In (y, x) (Stellar.edge_list g) /\ x <> y)).
  { intros x y. unfold Stellar.neighbor_arrays.
    rewrite in_app_iff, !in_map_iff. split.
    - intros [([s t] & E & He)|([s t] & E & He)];
        apply filter_In in He; destruct He as [He Hb]; simpl in *; subst.
      + apply String.eqb_eq in Hb. subst. now left.
      + apply andb_true_iff in Hb. destruct Hb as [H1 H2].
        apply String.eqb_eq in H1. apply negb_true_iff in H2.
        apply String.eqb_neq in H2. subst. right. split; auto.
    - intros [H|[H Hne]].
      + left. exists (x, y). split; auto. apply filter_In. split; auto.
        simpl. apply String.eqb_refl.
      + right. exists (y, x). split; auto. apply filter_In. split; auto.
        simpl. rewrite String.eqb_refl. simpl. apply negb_true_iff.
        apply String.eqb_neq. congruence. }
  rewrite !G.
  destruct (string_dec a b) as [->|Hne]; [tauto|].
  split; intros [H|[H _]]; auto.
Qed.

(** X3.  The graph is undirected: [b] is a neighbour of [a] exactly when [a]
    is a neighbour of [b], whichever way round the edge was written. *)
Theorem neighbours_symmetric (g : Stellar.graph) (a b : string) :
  In b (Stellar.neighbor_arrays g a) <-> In a (Stellar.neighbor_arrays g b).
Proof.
  apply neighbours_sym.
Qed.

(** Every node of a graph built from an edge frame has a neighbour. *)
Lemma node_has_neighbour (edges : list edge) (v : string) :
  In v (Stellar.nodes (Stellar.StellarGraph edges)) ->
  Stellar.neighbor_arrays (Stellar.StellarGraph edges) v <> [].
Proof.
  intros H. apply TableClaims.nodes_of_edges in H.
  assert (G : forall e, In e edges ->
                In (snd e) (Stellar.neighbor_arrays (Stellar.StellarGraph edges) (fst e))).
  { intros e He. unfold Stellar.neighbor_arrays. cbn [Stellar.edge_list].
    apply in_or_app. left. apply in_map. apply filter_In. split; auto.
    apply String.eqb_refl. }
  destruct H as (e & He & [->| ->]); specialize (G e He).
  - intros C. rewrite C in G. contradiction.
  - apply neighbours_sym in G. intros C. rewrite C in G. contradiction.
Qed.

End LoaderMore.

(** ** More on the walks *)

Module WalkMore.
Import Stellar Walk WalkFacts WalkClaims LoaderMore.
Local Open Scope list_scope.

Section Sampler.
Variable g : graph.
Variables ip iq : Q.
Variable rs : rng.

Lemma extend_path (steps : nat) :
  forall previous_node previous_node_neighbours current_node k l k',
    extend g ip iq rs steps previous_node previous_node_neighbours current_node k
    = Ok (l, k') ->
    is_path g (current_node :: l).
Proof.
  induction steps as [|steps IH]; intros prev pn cur k l k' H.
  - injection H as <- _. exact I.
  - cbn [extend] in H. cbv zeta in H.
    destruct (neighbor_arrays g cur) as [|x t] eqn:Hn.
    + injection H as <- _. exact I.
    + destruct (naive_weighted_choices _ _) as [choice|].
      * destruct (nth_error (x :: t) choice) as [next|] eqn:Hnth; [|discriminate].
        destruct (extend g ip iq rs steps (Some cur) (x :: t) next (S k))
          as [[l1 k1]|e] eqn:E; [|discriminate].
        cbn [bind fst snd] in H. injection H as <- _.
        split.
        -- rewrite Hn. eapply nth_error_In; eauto.
        -- eapply IH; eauto.
      * injection H as <- _. exact I.
Qed.

Lemma walks_from_roots (steps n : nat) (node : string) :
  forall k ws k',
    walks_from g ip iq rs steps n node k = Ok (ws, k') ->
    List.length ws = n /\ Forall (from_root g node) ws.
Proof.
  induction n as [|n IH]; intros k ws k' H.
  - injection H as <- _. split; [reflexivity | constructor].
  - cbn [walks_from] in H.
    destruct (extend g ip iq rs steps None [] node k) as [[l k1]|e] eqn:E;
      [|discriminate].
    cbn [bind fst snd] in H.
    destruct (walks_from g ip iq rs steps n node k1) as [[ws1 k2]|e] eqn:E2;
      [|discriminate].
    cbn [bind fst snd] in H. injection H as <- _.
    destruct (IH _ _ _ E2) as [Hlen Hall]. split; [simpl; lia|].
    constructor; auto. split; [reflexivity|].
    eapply extend_path; eauto.
Qed.

Lemma walks_over_roots (steps n : nat) (roots : list string) :
  forall k ws k',
    walks_over g ip iq rs steps n roots k = Ok (ws, k') ->
    map (@hd_error string) ws = flat_map (fun r => repeat (Some r) n) roots /\
    Forall (is_path g) ws.
Proof.
  induction roots as [|node rest IH]; intros k ws k' H.
  - injection H as <- _. split; [reflexivity | constructor].
  - cbn [walks_over] in H.
    destruct (walks_from g ip iq rs steps n node k) as [[ws1 k1]|e] eqn:E1;
      [|discriminate].
    cbn [bind fst snd] in H.
    destruct (walks_over g ip iq rs steps n rest k1) as [[ws2 k2]|e] eqn:E2;
      [|discriminate].
    cbn [bind fst snd] in H. injection H as <- _.
    destruct (walks_from_roots _ _ _ _ _ _ E1) as [Hlen Hall].
    destruct (IH _ _ _ E2) as [Hh Hp].
    split.
    + cbn [flat_map]. rewrite map_app, Hh. f_equal.
      clear - Hlen Hall. subst n.
      induction Hall as [|w ws [Hw _] _ IHw]; [reflexivity|].
      cbn [map List.length repeat]. now rewrite Hw, IHw.
    + apply Forall_app. split; auto.
      eapply Forall_impl; [|exact Hall]. now intros w [_ Hw].
Qed.

End Sampler.

Lemma run_inv (g : graph) (rs : rng) (roots : list string) (L N : Z) (p q : Q)
    (walks : list (list string)) :
  run g rs roots L N p q = Ok walks ->
  1 <= N /\ 1 <= L /\
  exists k, walks_over g (1 / p) (1 / q) rs (Z.to_nat (L - 1)) (Z.to_nat N) roots O
            = Ok (walks, k).
Proof.
  unfold run.
  destruct (Z.ltb_spec N 1); [discriminate|].
  destruct (Z.ltb_spec L 1); [discriminate|].
  destruct (Qle_bool p 0); [discriminate|].
  destruct (Qle_bool q 0); [discriminate|].
  destruct (walks_over _ _ _ _ _ _ _ _) as [[ws k]|e]; [|discriminate].
  cbn [bind fst]. intros [= <-]. repeat split; auto. now exists k.
Qed.

(** X4.  Whatever [p] and [q] are, the walks come in the order of the roots,
    [n] in a row for each root, and every walk starts at its root. *)
Theorem walks_grouped_by_root (g : graph) (rs : rng) (roots : list string)
    (L N : Z) (p q : Q) (walks : list (list string)) :
  run g rs roots L N p q = Ok walks ->
  map (@hd_error string) walks = flat_map (fun r => repeat (Some r) (Z.to_nat N)) roots.
Proof.
  intros H. destruct (run_inv _ _ _ _ _ _ _ _ H) as (_ & _ & k & E).
  now destruct (walks_over_roots _ _ _ _ _ _ _ _ _ _ E).
Qed.

Lemma walks_grouped_by_root_witness :
  map (@hd_error string)
    [["A"; "B"; "C"]; ["A"; "B"; "C"]; ["B"; "C"; "B"]; ["B"; "C"; "B"];
     ["C"; "B"; "C"]; ["C"; "B"; "C"]]
  = flat_map (fun r => repeat (Some r) (Z.to_nat 2)) ["A"; "B"; "C"].
Proof.
  apply (walks_grouped_by_root (StellarGraph (clean Fixture.triangle)) Fixture.rs
           ["A"; "B"; "C"] 3 2 1 1).
  vm_compute. reflexivity.
Defined.

(** X5.  Whatever [p] and [q] are, a walk only moves along edges: each node
    after the first is a neighbour of the node before it. *)
Theorem walks_are_paths (g : graph) (rs : rng) (roots : list string)
    (L N : Z) (p q : Q) (walks : list (list string)) :
  run g rs roots L N p q = Ok walks ->
  forall w, In w walks -> is_path g w.
Proof.
  intros H. destruct (run_inv _ _ _ _ _ _ _ _ H) as (_ & _ & k & E).
  destruct (walks_over_roots _ _ _ _ _ _ _ _ _ _ E) as [_ Hp].
  now apply Forall_forall.
Qed.

Lemma walks_are_paths_witness :
  is_path (StellarGraph (clean Fixture.triangle)) ["A"; "B"; "C"].
Proof.
  apply (walks_are_paths (StellarGraph (clean Fixture.triangle)) Fixture.rs
           ["A"; "B"; "C"] 3 2 1 1
           [["A"; "B"; "C"]; ["A"; "B"; "C"]; ["B"; "C"; "B"]; ["B"; "C"; "B"];
            ["C"; "B"; "C"]; ["C"; "B"; "C"]]).
  - vm_compute. reflexivity.
  - simpl. auto.
Defined.

Lemma path_ends_with_neighbours (g : graph) (l : list string) :
  forall a d,
    is_path g (a :: l) -> neighbor_arrays g a <> [] ->
    neighbor_arrays g (last (a :: l) d) <> [].
Proof.
  induction l as [|b t IH]; intros a d Hp Ha; [exact Ha|].
  destruct Hp as [Hb Hp].
  change (last (a :: b :: t) d) with (last (b :: t) d).
  apply IH; auto.
  apply neighbours_sym in Hb. intros C. rewrite C in Hb. contradiction.
Qed.

(** X6.  In the script the graph comes from the edge frame, so no node is
    isolated and no walk stops early: every walk has exactly
    [walk_length] nodes. *)
Theorem walks_have_full_length (edges : list edge) (rs : rng) (N L : Z) :
  1 <= N -> 1 <= L ->
  exists walks,
    run (StellarGraph edges) rs (nodes (StellarGraph edges)) L N 1 1 = Ok walks /\
    forall w, In w walks -> Z.of_nat (List.length w) = L.
Proof.
  intros HN HL. set (g := StellarGraph edges).
  destruct (simple_walks_over_ok g rs (Z.to_nat (L - 1)) (Z.to_nat N) (nodes g) O)
    as (ws & k & E & _ & Hall).
  assert (Hrun : run g rs (nodes g) L N 1 1 = Ok ws).
  { rewrite run_unbiased. unfold simple_random_walk.
    destruct (Z.ltb_spec N 1); [lia|]. destruct (Z.ltb_spec L 1); [lia|].
    now rewrite E. }
  exists ws. split; [exact Hrun|].
  intros w Hw.
  destruct (run_inv _ _ _ _ _ _ _ _ Hrun) as (_ & _ & k1 & E1).
  destruct (walks_over_roots _ _ _ _ _ _ _ _ _ _ E1) as [Hh Hp].
  rewrite Forall_forall in Hall, Hp.
  destruct (Hall w Hw) as [[B1 B2] Hstop]. specialize (Hp w Hw).
  assert (Hroot : exists root t, w = root :: t /\ In root (nodes g)).
  { assert (Hin : In (hd_error w) (map (@hd_error string) ws)) by now apply in_map.
    rewrite Hh in Hin. apply in_flat_map in Hin.
    destruct Hin as (root & Hroot & Hrep). apply repeat_spec in Hrep.
    destruct w as [|a t]; [discriminate|].
    injection Hrep as ->. eauto. }
  destruct Hroot as (root & t & -> & Hroot).
  destruct (Nat.eq_dec (List.length (root :: t)) (S (Z.to_nat (L - 1)))) as [Heq|Hne].
  - rewrite Heq. lia.
  - exfalso.
    apply (path_ends_with_neighbours g t root "" Hp).
    + now apply node_has_neighbour.
    + apply Hstop. lia.
Qed.

Lemma walks_have_full_length_witness :
  exists walks,
    run (StellarGraph (clean Fixture.triangle)) Fixture.rs
      (nodes (StellarGraph (clean Fixture.triangle))) 5 2 1 1 = Ok walks /\
    forall w, In w walks -> Z.of_nat (List.length w) = 5.
Proof.
  apply (walks_have_full_length (clean Fixture.triangle) Fixture.rs 2 5); lia.
Defined.

End WalkMore.

(** ** More on the command line *)

Module ArgparseMore.
Import Argparse ArgparseFacts Script.
Local Open Scope list_scope.

Lemma resolves_to_other (d d' : dest) (arg : string) (short : bool)
    (explicit : option string) :
  resolves_to d arg = false -> classify arg = Flag (Store d') short explicit ->
  d <> d'.
Proof.
  unfold resolves_to. intros H Hc. rewrite Hc in H.
  destruct (dest_eq_dec d' d); [discriminate | congruence].
Qed.

(** Arguments that are not taken for an option of [d] leave its
    attribute alone. *)
Lemma consume_slot_exact (d : dest) (n : nat) :
  forall argv ns extras ns' extras',
    (List.length argv <= n)%nat ->
    (forall arg, In arg argv -> resolves_to d arg = false) ->
    consume argv ns extras = Scanned ns' extras' ->
    slot d ns' = slot d ns.
Proof.
  induction n as [|n IH]; intros argv ns extras ns' extras' Hlen Hno H.
  - destruct argv; [|simpl in Hlen; lia].
    simpl in H. now injection H as <- _.
  - destruct argv as [|arg rest]; [simpl in H; now injection H as <- _|].
    simpl in Hlen. cbn [consume] in H.
    destruct (String.eqb arg "--"); [now injection H as <- _|].
    assert (Hrest : forall x, In x rest -> resolves_to d x = false)
      by (intros; apply Hno; simpl; auto).
    destruct (classify arg) as [|a short explicit| |] eqn:Hc.
    + eapply IH; [| |exact H]; auto; lia.
    + destruct a as [d'|].
      * assert (Hd : d <> d')
          by (apply (resolves_to_other d d' arg short explicit); auto;
              apply Hno; simpl; auto).
        destruct explicit as [v|].
        -- destruct (store d' v ns) as [ns1|] eqn:Hst; [|discriminate].
           rewrite <- (store_slot d d' v ns ns1 Hd Hst).
           eapply IH; [| |exact H]; auto; lia.
        -- destruct rest as [|v rest']; [discriminate|].
           destruct (is_value v); [|discriminate].
           destruct (store d' v ns) as [ns1|] eqn:Hst; [|discriminate].
           rewrite <- (store_slot d d' v ns ns1 Hd Hst).
           eapply IH; [| |exact H].
           ++ simpl in Hlen; lia.
           ++ intros; apply Hrest; simpl; auto.
      * destruct short, explicit; discriminate.
    + discriminate.
    + eapply IH; [| |exact H]; auto; lia.
Qed.

Lemma parsed_slot (argv : list string) (args : Args) (d : dest) :
  parse_args argv = Parsed args ->
  existsb (resolves_to d) argv = false ->
  exists ns, slot d ns = slot d defaults /\
             dimensions args = ns_dimensions ns /\
             walk_length args = ns_walk_length ns /\
             num_walks args = ns_num_walks ns /\
             window_size args = ns_window_size ns /\
             epochs args = ns_epochs ns.
Proof.
  unfold parse_args. intros H Hd.
  destruct (ambiguous_somewhere argv); [discriminate|].
  destruct (consume argv defaults []) as [ns extras|status] eqn:Hc; [|discriminate].
  exists ns. split.
  - eapply consume_slot_exact; [apply le_n| |exact Hc].
    intros arg Hin. destruct (resolves_to d arg) eqn:E; auto.
    assert (existsb (resolves_to d) argv = true) by (apply existsb_exists; eauto).
    congruence.
  - destruct (ns_input ns), (ns_output ns), extras; try discriminate.
    injection H as <-. cbn. auto.
Qed.

(** X7.  An optional setting that no argument is taken for keeps the default
    of its [add_argument] line: 128 dimensions, walks of 50, 10 walks per
    node, a window of 10, 20 epochs. *)
Theorem options_default (argv : list string) (args : Args) :
  parse_args argv = Parsed args ->
  (existsb (resolves_to Dimensions) argv = false -> dimensions args = 128) /\
  (existsb (resolves_to WalkLength) argv = false -> walk_length args = 50) /\
  (existsb (resolves_to NumWalks) argv = false -> num_walks args = 10) /\
  (existsb (resolves_to WindowSize) argv = false -> window_size args = 10) /\
  (existsb (resolves_to Epochs) argv = false -> epochs args = 20).
Proof.
  intros H. repeat split; intros Hd;
    destruct (parsed_slot argv args _ H Hd) as (ns & E & E1 & E2 & E3 & E4 & E5);
    simpl in E; injection E as E; congruence.
Qed.

Lemma options_default_witness :
  walk_length {| input := "a"; output := "b"; dimensions := 128; walk_length := 50;
                 num_walks := 10; window_size := 5; epochs := 20 |} = 50.
Proof.
  destruct (options_default ["-i"; "a"; "-o"; "b"; "--window_size"; "5"]
              {| input := "a"; output := "b"; dimensions := 128; walk_length := 50;
                 num_walks := 10; window_size := 5; epochs := 20 |} eq_refl)
    as (_ & H & _).
  apply H. reflexivity.
Defined.

Lemma value_is_positional (v : string) :
  is_value v = true -> classify v = Positional /\ String.eqb v "--" = false.
Proof.
  unfold is_value. intros H. split.
  - destruct (classify v); congruence.
  - destruct (String.eqb_spec v "--") as [->|]; [|reflexivity].
    discriminate H.
Qed.

(** X8.  The two required options with a value each are enough: the command
    line parses, the values arrive unchanged and everything else is at its
    default. *)
Theorem required_options_parse (fi fo i o : string) :
  lookup fi option_strings = Some (Store Input) ->
  lookup fo option_strings = Some (Store Output) ->
  is_value i = true -> is_value o = true ->
  parse_args [fi; i; fo; o]
  = Parsed {| input := i; output := o; dimensions := 128; walk_length := 50;
              num_walks := 10; window_size := 10; epochs := 20 |}.
Proof.
  intros Hi Ho Vi Vo.
  destruct (value_is_positional i Vi) as [Ci Ei].
  destruct (value_is_positional o Vo) as [Co Eo].
  apply lookup_In in Hi. apply lookup_In in Ho.
  each_option Hi; each_option Ho;
    unfold parse_args; cbn [ambiguous_somewhere consume];
    rewrite ?Ei, ?Eo, ?Ci, ?Co, ?Vi, ?Vo;
    cbn; rewrite ?Ei, ?Eo, ?Ci, ?Co, ?Vi, ?Vo; reflexivity.
Qed.

Lemma required_options_parse_witness :
  parse_args ["-i"; "edges.tsv"; "--output"; "out.csv"]
  = Parsed {| input := "edges.tsv"; output := "out.csv"; dimensions := 128;
              walk_length := 50; num_walks := 10; window_size := 10; epochs := 20 |}.
Proof.
  apply (required_options_parse "-i" "--output" "edges.tsv" "out.csv"); reflexivity.
Defined.

Lemma help_cluster_status (x : string) (next : option string) :
  help_cluster x next = 0 \/ help_cluster x next = 2.
Proof.
  induction x as [|c t IH]; cbn [help_cluster]; auto.
  destruct (lookup _ option_strings) as [[d|]|]; auto.
  destruct (match t with EmptyString => _ | String _ _ => _ end); auto.
  destruct (store d s defaults); auto.
Qed.

Lemma consume_status (n : nat) :
  forall argv ns extras status,
    (List.length argv <= n)%nat ->
    consume argv ns extras = Stopped status -> status = 0 \/ status = 2.
Proof.
  induction n as [|n IH]; intros argv ns extras status Hlen H.
  - destruct argv; [|simpl in Hlen; lia]. discriminate.
  - destruct argv as [|arg rest]; [discriminate|].
    simpl in Hlen. cbn [consume] in H.
    destruct (String.eqb arg "--"); [discriminate|].
    destruct (classify arg) as [|a short explicit| |].
    + eapply IH; [|exact H]; lia.
    + destruct a as [d'|].
      * destruct explicit as [v|].
        -- destruct (store d' v ns) as [ns1|]; [|injection H as <-; auto].
           eapply IH; [|exact H]; lia.
        -- destruct rest as [|v rest']; [injection H as <-; auto|].
           destruct (is_value v); [|injection H as <-; auto].
           destruct (store d' v ns) as [ns1|]; [|injection H as <-; auto].
           eapply IH; [|exact H]. simpl in Hlen; lia.
      * destruct short, explicit; injection H as <-; auto.
        apply help_cluster_status.
    + injection H as <-; auto.
    + eapply IH; [|exact H]; lia.
Qed.

Lemma letter_is_no_digit (c : ascii) : is_letter c = true -> is_digit c = false.
Proof.
  unfold is_letter, is_digit. cbv zeta.
  generalize (nat_of_ascii c). intros n H.
  apply orb_true_iff in H. rewrite !andb_true_iff, !Nat.leb_le in H.
  apply andb_false_iff. rewrite !Nat.leb_gt. lia.
Qed.

Lemma letters_are_no_digits (s : string) :
  has_letter s = true -> forall acc, digits_value acc s = None.
Proof.
  induction s as [|c t IH]; [discriminate|].
  cbn [has_letter digits_value]. intros H acc.
  destruct (is_digit c) eqn:D; [|reflexivity].
  apply IH. destruct (is_letter c) eqn:E; [|exact H].
  apply letter_is_no_digit in E. congruence.
Qed.

Lemma letters_not_all_digits (s : string) : has_letter s = true -> all_digits s = false.
Proof.
  intros H. unfold all_digits. destruct s; [reflexivity|].
  now rewrite letters_are_no_digits.
Qed.

(** [int] raises on a text with a letter. *)
Lemma int_of_letters (v : string) : has_letter v = true -> int v = None.
Proof.
  destruct v as [|c t]; [discriminate|]. intros H.
  pose proof (letters_not_all_digits _ H) as A1.
  assert (A2 : is_letter c = false -> all_digits t = false).
  { intros E. apply letters_not_all_digits. cbn [has_letter] in H.
    now rewrite E in H. }
  destruct c as [[] [] [] [] [] [] [] []]; unfold int;
    first [ rewrite A1; reflexivity | rewrite A2 by reflexivity; reflexivity ].
Qed.

(** X9.  A value with a letter in it, after an option declared with
    [type=int] at the head of the command line, ends the run in the
    parser with status 2 before anything is printed. *)
Theorem bad_integer_exits_2 {scalar : Type} (L : Libraries scalar)
    (flag v : string) (rest : list string) (d : dest) :
  lookup flag option_strings = Some (Store d) ->
  int_dest d = true ->
  has_letter v = true ->
  main L (flag :: v :: rest) = {| ended := Exited 2; printed := []; written := [] |}.
Proof.
  intros Hf Hd Hl. pose proof (int_of_letters v Hl) as Hv.
  assert (P : parse_args (flag :: v :: rest) = SystemExit 2).
  { unfold parse_args.
    destruct (ambiguous_somewhere (flag :: v :: rest)); [reflexivity|].
    apply lookup_In in Hf.
    each_option Hf; try discriminate Hd;
      cbn [consume]; cbn; destruct (is_value v); try reflexivity;
      rewrite Hv; reflexivity. }
  unfold main. now rewrite P.
Qed.

Lemma bad_integer_exits_2_witness :
  main Fixture.libraries ["--dimensions"; "many"; "-i"; "edges.tsv"; "-o"; "out.csv"]
  = {| ended := Exited 2; printed := []; written := [] |}.
Proof.
  apply (bad_integer_exits_2 Fixture.libraries "--dimensions" "many"
           ["-i"; "edges.tsv"; "-o"; "out.csv"] Dimensions); reflexivity.
Defined.

End ArgparseMore.

(** ** More on the script *)

Module ScriptMore.
Import Argparse Script ArgparseFacts ArgparseMore PandasFacts TableClaims WalkMore.
Local Open Scope list_scope.

Lemma parse_status (argv : list string) (status : Z) :
  parse_args argv = SystemExit status -> status = 0 \/ status = 2.
Proof.
  unfold parse_args.
  destruct (ambiguous_somewhere argv); [intros [= <-]; auto|].
  destruct (consume argv defaults []) as [ns extras|s] eqn:Hc.
  - destruct (ns_input ns), (ns_output ns), extras;
      try discriminate; intros [= <-]; auto.
  - intros [= <-]. eapply consume_status; [apply le_n | exact Hc].
Qed.

Section Dict.
Context {V : Type}.

Lemma get_setitem (d : list (string * V)) (key key' : string) (v : V) :
  get (setitem d key v) key' = if String.eqb key key' then Some v else get d key'.
Proof.
  induction d as [|[k w] t IH]; cbn [setitem get].
  - reflexivity.
  - destruct (String.eqb_spec k key) as [->|Hne]; cbn [get].
    + destruct (String.eqb key key'); reflexivity.
    + rewrite IH. destruct (String.eqb_spec k key') as [->|Hne'].
      * destruct (String.eqb_spec key key') as [->|]; [contradiction | reflexivity].
      * reflexivity.
Qed.

Lemma get_combine_map {W : Type} (h : V -> W) (d : list (string * V)) (key : string) :
  get (combine (map fst d) (map (fun kv => h (snd kv)) d)) key
  = option_map h (get d key).
Proof.
  induction d as [|[k w] t IH]; cbn [map combine get fst snd]; [reflexivity|].
  destruct (String.eqb k key); [reflexivity | exact IH].
Qed.
End Dict.

Section Extract.
Context {scalar : Type}.
Variable wv : KeyedVectors scalar.

Lemma extract_get (ids : list string) :
  forall acc embeddings key v,
    extract wv ids acc = Ok embeddings ->
    get embeddings key = Some v ->
    get acc key = Some v \/ get wv key = Some v.
Proof.
  induction ids as [|x t IH]; intros acc emb key v H Hg.
  - simpl in H. injection H as <-. auto.
  - cbn [extract str] in H. unfold getitem in H.
    destruct (get wv x) as [v0|] eqn:Hx; [|discriminate].
    cbn [bind] in H.
    destruct (IH _ _ _ _ H Hg) as [Hs|]; auto.
    rewrite get_setitem in Hs.
    destruct (String.eqb_spec x key) as [->|]; auto.
    right. congruence.
Qed.

Lemma extract_total (ids : list string) :
  (forall id, In id ids -> get wv id <> None) ->
  forall acc, exists embeddings, extract wv ids acc = Ok embeddings.
Proof.
  induction ids as [|x t IH]; intros H acc.
  - eexists; reflexivity.
  - cbn [extract str]. unfold getitem.
    destruct (get wv x) as [v|] eqn:Hx.
    + cbn [bind]. apply IH. intros; apply H; now right.
    + exfalso. apply (H x); [now left | exact Hx].
Qed.
End Extract.

Section Libraries.
Context {scalar : Type}.
Variable L : Libraries scalar.

(** X10.  The only statuses a run can end with are 0, 1 and 2, and 2 comes
    from the argument parser alone, before [main] prints anything. *)
Theorem exit_status_range (argv : list string) :
  (exit_status (main L argv) = 2 /\ parse_args argv = SystemExit 2 /\
   printed (main L argv) = []) \/
  exit_status (main L argv) = 0 \/ exit_status (main L argv) = 1.
Proof.
  unfold exit_status, main.
  destruct (parse_args argv) as [args|status] eqn:Hp.
  - right.
    destruct (read_csv L (input args)) as [rows|e]; [|now right].
    destruct (StellarGraph L (clean rows)) as [graph|e]; [|now right].
    destruct (BiasedRandomWalk_run L graph _ _ _ _ _) as [walks|e]; [|now right].
    destruct (Word2Vec L _ _ _ _ _ _ _) as [wv|e]; [|now right].
    destruct (extract wv _ _) as [embeddings|e]; [|now right].
    destruct (to_csv L _ _) as [u|e]; [now left | now right].
  - cbn [ended printed]. destruct (parse_status argv status Hp) as [->| ->]; auto.
Qed.


(** X12.  On a run that ends with status 0, every row of the written table is
    the vector the trained model holds for the row's [gene_id] (filled up
    to the width of the table when it is shorter). *)
Theorem rows_are_model_vectors (argv : list string) (args : Args) :
  parse_args argv = Parsed args ->
  ended (main L argv) = Exited 0 ->
  exists sentences wv df,
    Word2Vec L sentences (dimensions args) (window_size args) 1 1 4 (epochs args)
    = Ok wv /\
    written (main L argv) = [(output args, df)] /\
    forall key row,
      loc df key = Some row ->
      exists v, getitem wv key = Ok v /\ row = pad scalar (List.length (columns df)) v.
Proof.
  intros Hparse Hend.
  destruct (main_success L argv args Hparse Hend)
    as (rows & graph & walks & wv & emb & _ & _ & _ & H4 & H5 & Hw).
  exists (map (map (fun node => str (VStr node))) walks), wv,
    (set_index_name (from_dict emb) "gene_id").
  split; [exact H4|]. split; [exact Hw|].
  intros key row Hloc. unfold loc in Hloc.
  cbn [index data columns set_index_name from_dict] in *.
  rewrite length_seq.
  rewrite (get_combine_map (pad scalar _) emb key) in Hloc.
  destruct (get emb key) as [v|] eqn:Hg; [|discriminate].
  injection Hloc as <-. exists v. split; [|reflexivity].
  destruct (extract_get wv _ _ _ _ _ H5 Hg) as [C|Hv]; [discriminate|].
  unfold getitem. now rewrite Hv.
Qed.

End Libraries.

Lemma rows_are_model_vectors_witness :
  exists sentences wv df,
    Word2Vec Fixture.libraries sentences 4 10 1 1 4 20 = Ok wv /\
    written (main Fixture.libraries Fixture.argv) = [("out.csv", df)] /\
    forall key row,
      loc df key = Some row ->
      exists v, getitem wv key = Ok v /\ row = pad Z (List.length (columns df)) v.
Proof.
  apply (rows_are_model_vectors Fixture.libraries Fixture.argv
           {| input := "edges.tsv"; output := "out.csv"; dimensions := 4;
              walk_length := 5; num_walks := 2; window_size := 10; epochs := 20 |}).
  - reflexivity.
  - vm_compute. reflexivity.
Defined.

Lemma every_root_walked (g : Stellar.graph) (rs : Walk.rng) (roots : list string)
    (L N : Z) (p q : Q) (walks : list (list string)) (root : string) :
  Walk.run g rs roots L N p q = Ok walks -> In root roots ->
  exists l, In (root :: l) walks.
Proof.
  intros H Hin.
  destruct (run_inv _ _ _ _ _ _ _ _ H) as (HN & _ & k & E).
  destruct (walks_over_roots _ _ _ _ _ _ _ _ _ _ E) as [Hh _].
  assert (Hs : In (Some root) (map (@hd_error string) walks)).
  { rewrite Hh. apply in_flat_map. exists root. split; auto.
    destruct (Z.to_nat N) as [|n] eqn:En; [lia|]. now left. }
  apply in_map_iff in Hs. destruct Hs as (w & Hw & Hin').
  destruct w as [|a l]; [discriminate|]. injection Hw as ->. eauto.
Qed.

(** X13.  With a trainer that leaves no token out (what [min_count=1] is
    for), the look-up of lines 86-87 cannot fail: every node starts a
    walk, so every node is a token.  A run on an edge file then ends in a
    traceback only through the trainer or the writer. *)
Theorem no_missing_vector {scalar : Type} (version : string)
    (fs : Csv.filesystem) (rs : Walk.rng)
    (trainer : list (list string) -> Z -> Z -> Z -> Z -> Z -> Z
               -> result (KeyedVectors scalar))
    (writer : DataFrame scalar -> string -> result unit)
    (argv : list string) (args : Args) (e : exception) :
  keeps_every_token trainer ->
  parse_args argv = Parsed args ->
  ended (main (installed version fs rs trainer writer) argv) = Traceback e ->
  (exists sentences,
      trainer sentences (dimensions args) (window_size args) 1 1 4 (epochs args)
      = Error e) \/
  (exists df, writer df (output args) = Error e).
Proof.
  intros Hkeep Hparse. unfold main. rewrite Hparse.
  cbn [read_csv StellarGraph BiasedRandomWalk_run Word2Vec to_csv installed].
  destruct (Csv.read_csv fs (input args)) as [rows|e0]; [|discriminate].
  set (g := Stellar.StellarGraph (clean rows)).
  destruct (Walk.run g rs (Stellar.nodes g) _ _ 1 1) as [walks|e0] eqn:Hrun;
    [|discriminate].
  destruct (trainer _ _ _ _ _ _ _) as [wv|e0] eqn:Ht.
  - destruct (extract_total wv (Stellar.nodes g)) with (acc := @nil (string * vector scalar))
      as (emb & He).
    { intros id Hid.
      destruct (every_root_walked _ _ _ _ _ _ _ _ id Hrun Hid) as (l & Hl).
      apply (Hkeep _ _ _ _ _ _ _ _ Ht (map (fun node => str (VStr node)) (id :: l))).
      - now apply in_map.
      - now left. }
    rewrite He.
    destruct (writer _ _) as [u|e0] eqn:Hw; [discriminate|].
    cbn [ended]. intros [= <-]. right. eauto.
  - cbn [ended]. intros [= <-]. left. eauto.
Qed.

Lemma zeros_keeps_every_token : keeps_every_token Fixture.zeros.
Proof.
  unfold keeps_every_token, Fixture.zeros.
  intros sentences vector_size window min_count sg workers epochs wv H s t Hs Ht.
  assert (Hin : In t (List.concat sentences)) by (apply in_concat; eauto).
  destruct (List.concat sentences) as [|x l]; [contradiction|].
  remember (keep_first string_dec [] (x :: l)) as tokens eqn:Etokens.
  destruct (vector_size <? 0); [discriminate|].
  injection H as <-.
  assert (G : forall (toks : list string),
             In t toks ->
             get (map (fun t0 => (t0, repeat 0 (Z.to_nat vector_size))) toks) t <> None).
  { induction toks as [|y u IH]; [contradiction|].
    intros [->|Hu]; cbn [map get].
    - rewrite String.eqb_refl. discriminate.
    - destruct (String.eqb y t); [discriminate | now apply IH]. }
  apply G. subst tokens. apply keep_first_In. split; [exact Hin | intros []].
Qed.

Lemma no_missing_vector_witness :
  (exists sentences,
      Fixture.zeros sentences 4 10 1 1 4 20
      = Error (Raise "OSError" "[Errno 28] No space left on device")) \/
  (exists df,
      Fixture.disk_full df "out.csv"
      = Error (Raise "OSError" "[Errno 28] No space left on device")).
Proof.
  apply (no_missing_vector "4.3.2" Fixture.fs Fixture.rs Fixture.zeros Fixture.disk_full
           Fixture.argv
           {| input := "edges.tsv"; output := "out.csv"; dimensions := 4;
              walk_length := 5; num_walks := 2; window_size := 10; epochs := 20 |}).
  - apply zeros_keeps_every_token.
  - reflexivity.
  - vm_compute. reflexivity.
Defined.

End ScriptMore.
